(** * QuantEmul: Hilbert spaces and density-matrix states

    A shallow embedding of [hilbert_space.cpp] and [quantum_state.cpp].
    The headers are not at hand: the members [_rank] and [_dim] are taken to
    be [int], as [rank()] and [totalDimension()] return them, and
    [_dimensions] to be [std::vector<uint>], as [dimensions()] returns it.

    - 32-bit [int] and [uint] values are integers of [Z]; every conversion
      and every arithmetic result that C++ stores into an [int] goes through
      [to_int], every one computed in [unsigned] through [to_uint].
    - Element counts ([std::vector::size], [_rank], loop counters that run
      over vector positions) are exact: a vector of more than [INT_MAX]
      elements is outside the model.
    - A thrown exception, an Eigen index assertion and an out-of-bounds
      [std::vector] access are outcomes of the [result] type.
    - Objects that are reached through C++ references live in a store
      ([gmap] from addresses to values), so that two references to one
      object are one address. *)

From Stdlib Require Import ZArith QArith Qabs Reals Lia Lra.
From stdpp Require Import base option list gmap sorting.

Local Close Scope Q_scope.
Local Close Scope R_scope.

Local Open Scope Z_scope.

(** ** Machine integers *)

Module MachineInt.

Definition INT_MAX : Z := 2 ^ 31 - 1.
Definition UINT_MAX : Z := 2 ^ 32 - 1.

(** Conversion to [unsigned int]: reduction modulo 2^32. *)
Definition to_uint (z : Z) : Z := z mod 2 ^ 32.

(** Conversion to [int]: the two's complement representative. *)
Definition to_int (z : Z) : Z := (z + 2 ^ 31) mod 2 ^ 32 - 2 ^ 31.

Definition is_int (z : Z) : Prop := - 2 ^ 31 <= z <= INT_MAX.

End MachineInt.
Export MachineInt.

(** ** Outcomes of a call *)

Inductive exn : Type :=
| InvalidArgument   (* std::invalid_argument *)
| OutOfRange        (* std::out_of_range *)
| RuntimeError      (* std::runtime_error *)
| Undefined.        (* index assertion of Eigen, access outside a std::vector,
                       division by zero *)

Inductive result (A : Type) : Type :=
| Ok (a : A)
| Throw (e : exn).
Arguments Ok {A} a.
Arguments Throw {A} e.

#[global] Instance result_ret : MRet result := fun A a => Ok a.
#[global] Instance result_bind : MBind result := fun A B f m =>
  match m with
  | Ok a => f a
  | Throw e => Throw e
  end.

#[global] Instance exn_eq_dec : EqDecision exn.
Proof. solve_decision. Defined.

(** Checked element access: [l[i]] for reading and for writing. *)
Definition at_ {A : Type} (l : list A) (i : nat) : result A :=
  match l !! i with
  | Some v => Ok v
  | None => Throw Undefined
  end.

Definition put {A : Type} (l : list A) (i : nat) (v : A) : result (list A) :=
  if decide (i < length l)%nat then Ok (<[i := v]> l) else Throw Undefined.

(** [for (int i = from; i < from + count; ++i) body], threading the
    variables the body writes. *)
Fixpoint for_ {St : Type} (from count : nat) (body : nat -> St -> result St)
    (s : St) : result St :=
  match count with
  | O => Ok s
  | S count' => s' ← body from s; for_ (S from) count' body s'
  end.

(** ** hilbert_space.cpp *)

Module HilbertSpace.

Record t : Type := mk {
  _rank : Z;
  _dim : Z;
  _dimensions : list Z
}.

Definition set_rank (s : t) (r : Z) : t :=
  {| _rank := r; _dim := _dim s; _dimensions := _dimensions s |}.
Definition set_dim (s : t) (d : Z) : t :=
  {| _rank := _rank s; _dim := d; _dimensions := _dimensions s |}.
Definition push_back (s : t) (d : Z) : t :=
  {| _rank := _rank s; _dim := _dim s; _dimensions := _dimensions s ++ [d] |}.

(** [HilbertSpace::HilbertSpace()] *)
Definition construct : t :=
  {| _rank := 0; _dim := 0; _dimensions := [] |}.

(** [HilbertSpace::HilbertSpace(uint dim)] *)
Definition construct_dim (dim : Z) : result t :=
  if dim =? 0 then Throw InvalidArgument
  else Ok {| _rank := 1; _dim := to_int dim; _dimensions := [dim] |}.

(** The loop of [HilbertSpace::HilbertSpace(const std::vector<uint>&)]:
    [rest] holds [dimensions[i]], [dimensions[i+1]], ...; [_dim *= dimensions[i]]
    multiplies an [int] by a [uint], that is in [unsigned], and stores an
    [int]. *)
Fixpoint construct_loop (rest : list Z) (dim : Z) : result Z :=
  match rest with
  | [] => Ok dim
  | d :: rest' =>
      if d =? 0 then Throw InvalidArgument
      else construct_loop rest' (to_int (to_uint dim * d))
  end.

(** [HilbertSpace::HilbertSpace(const std::vector<uint>& dimensions)] *)
Definition construct_dimensions (dimensions : list Z) : result t :=
  dim ← construct_loop dimensions 1;
  Ok {| _rank := Z.of_nat (length dimensions); _dim := dim;
        _dimensions := dimensions |}.

(** *** Accessors *)

Definition rank (s : t) : Z := _rank s.

Definition dimension (s : t) (index : Z) : result Z :=
  if index <? 0 then Throw OutOfRange
  else if _rank s <=? index then Throw OutOfRange
  else match _dimensions s !! Z.to_nat index with
       | Some d => Ok (to_int d)
       | None => Throw Undefined
       end.

Definition dimensions (s : t) : list Z := _dimensions s.

Definition totalDimension (s : t) : Z := _dim s.

(** [operator==] compares the two [_dimensions] vectors and nothing else. *)
Definition eqb (s other : t) : bool :=
  bool_decide (_dimensions s = _dimensions other).

Definition neqb (s other : t) : bool := negb (eqb s other).

(** *** The store of spaces reached through references *)

Abbreviation addr := nat (only parsing).
Abbreviation store := (gmap nat t) (only parsing).

Definition deref (h : store) (a : addr) : result t :=
  match h !! a with
  | Some s => Ok s
  | None => Throw Undefined
  end.

(** The loop of [tensorWith], [todo] iterations from position [i]:
    [_dimensions.push_back(second._dimensions[i])].  Both operands are read
    through the store at every iteration, since [second] may be [*this]. *)
Fixpoint tensorWith_loop (this second : addr) (i todo : nat) (h : store)
  : result store :=
  match todo with
  | O => Ok h
  | S todo' =>
      s ← deref h this;
      o ← deref h second;
      match _dimensions o !! i with
      | Some d => tensorWith_loop this second (S i) todo' (<[this := push_back s d]> h)
      | None => Throw Undefined
      end
  end.

(** [void HilbertSpace::tensorWith(const HilbertSpace& second)].  The loop
    bound [second._rank] is read after [_rank += second._rank]; the loop
    body does not write [_rank], so the bound is the same at every test. *)
Definition tensorWith (this second : addr) (h : store) : result store :=
  s ← deref h this;
  o ← deref h second;
  let h1 := <[this := set_rank s (_rank s + _rank o)]> h in
  o1 ← deref h1 second;
  h2 ← tensorWith_loop this second 0 (Z.to_nat (_rank o1)) h1;
  s2 ← deref h2 this;
  o2 ← deref h2 second;
  Ok (<[this := set_dim s2 (to_int (_dim s2 * _dim o2))]> h2).

(** [static HilbertSpace tensor(const HilbertSpace& first, const HilbertSpace& second)]:
    the local [space] is a copy of [first] at an unused address; it is
    returned by value and its storage released. *)
Definition tensor (first second : addr) (h : store) : result (t * store) :=
  f ← deref h first;
  let space := fresh (dom h) in
  h' ← tensorWith space second (<[space := f]> h);
  r ← deref h' space;
  Ok (r, delete space h').

(** *** Index algebra *)

(** The loop of [getVector]; [n] is the number of iterations left, the loop
    variable of the next one is [n - 1].  [index % _dimensions[i]] is
    computed in [unsigned].  The quotient [1.0 * index / _dimensions[i]] of
    two 32-bit values is exact up to rounding that [floor] undoes, and the
    floor lies between 0 and [index], so the cast back to [int] keeps it. *)
Fixpoint getVector_loop (dims : list Z) (n : nat) (vec : list Z) (index : Z)
  : result (list Z) :=
  match n with
  | O => Ok vec
  | S i =>
      match dims !! i with
      | Some d =>
          if d =? 0 then Throw Undefined
          else getVector_loop dims i (<[i := to_uint index mod d]> vec) (index / d)
      | None => Throw Undefined
      end
  end.

(** [VectorXcd HilbertSpace::getVector(int index)].  The coordinates are
    integers stored in [complex<double>]; they are kept as integers.  The
    vector is allocated with [_rank] entries, every one written by the loop. *)
Definition getVector (s : t) (index : Z) : result (list Z) :=
  let n := Z.to_nat (_rank s) in
  getVector_loop (_dimensions s) n (replicate n 0) index.

(** The loop of [getIndex]; [n] iterations left, next loop variable [n - 1].
    [index += (int) vec[i].real() * multiplier] is [int] arithmetic,
    [multiplier *= _dimensions[i]] multiplies an [int] by a [uint].  The
    coordinates are integers within the range of [int], on which the cast
    [(int) vec[i].real()] is the identity ([to_int] leaves them as they
    are); the conversion of a value outside that range is undefined in C++
    and outside the model. *)
Fixpoint getIndex_loop (dims vec : list Z) (n : nat) (index multiplier : Z)
  : result Z :=
  match n with
  | O => Ok index
  | S i =>
      match vec !! i, dims !! i with
      | Some v, Some d =>
          getIndex_loop dims vec i
            (to_int (index + to_int (to_int v * multiplier)))
            (to_int (to_uint multiplier * d))
      | _, _ => Throw Undefined
      end
  end.

(** [int HilbertSpace::getIndex(VectorXcd vec)].  With an empty [vec] the
    first read is [vec[-1]]. *)
Definition getIndex (s : t) (vec : list Z) : result Z :=
  if bool_decide (Z.of_nat (length vec) = _rank s) then
    match length vec with
    | O => Throw Undefined
    | S m =>
        match vec !! m, _dimensions s !! Z.to_nat (_rank s - 1) with
        | Some v, Some d =>
            getIndex_loop (_dimensions s) vec m (to_int v) (to_int d)
        | _, _ => Throw Undefined
        end
    end
  else Throw InvalidArgument.

(** *** Mixed-radix arithmetic, as mathematics *)

Definition product (ds : list Z) : Z := foldr Z.mul 1 ds.

(** The digits of [x]: the digit at a position is [x] divided by the
    product of the later dimensions, modulo the dimension there. *)
Fixpoint decompose (ds : list Z) (x : Z) : list Z :=
  match ds with
  | [] => []
  | d :: ds' => (x / product ds') mod d :: decompose ds' x
  end.

(** The number with the given digits. *)
Fixpoint compose (ds vs : list Z) : Z :=
  match ds, vs with
  | d :: ds', v :: vs' => v * product ds' + compose ds' vs'
  | _, _ => 0
  end.

(** Every digit lies below its dimension. *)
Abbreviation in_range := (Forall2 (fun v d : Z => 0 <= v < d)).

(** [vs] with the digit [k] put in at position [idx]. *)
Definition insert_digit (idx : nat) (k : Z) (vs : list Z) : list Z :=
  take idx vs ++ k :: drop idx vs.

(** The flat index, in the space of dimensions [ds], of the multi-index
    obtained by inserting the digit [k] at position [idx] into the
    multi-index that [i] has in the space without the factor [idx]. *)
Definition with_digit (ds : list Z) (idx : nat) (i k : Z) : Z :=
  compose ds (insert_digit idx k (decompose (delete idx ds) i)).

(** The space without the factor [idx], as line 61 builds it. *)
Definition reduced_space (ds : list Z) (idx : nat) : t :=
  {| _rank := Z.of_nat (length (delete idx ds));
     _dim := product (delete idx ds);
     _dimensions := delete idx ds |}.

(** The flat index of a row in the reduced space, the digit of the row at
    the traced factor, and the row of a reduced index and a digit. *)
Definition reduced_index (ds : list Z) (idx : nat) (r : nat) : nat :=
  Z.to_nat (compose (delete idx ds) (delete idx (decompose ds (Z.of_nat r)))).
Definition digit (ds : list Z) (idx : nat) (r : nat) : Z :=
  default 0 (decompose ds (Z.of_nat r) !! idx).
Definition full_index (ds : list Z) (idx : nat) (c : nat) (k : Z) : nat :=
  Z.to_nat (with_digit ds idx (Z.of_nat c) k).

(** *** Invariants *)

Definition is_dim (d : Z) : Prop := 1 <= d <= UINT_MAX.

(** What every constructor and [tensorWith] between two distinct spaces
    maintain. *)
Definition wf (s : t) : Prop :=
  _rank s = Z.of_nat (length (_dimensions s)) /\
  Forall is_dim (_dimensions s) /\
  (_dim s = 0 \/ _dim s = to_int (product (_dimensions s))).

(** The invariant as it is claimed of every space. *)
Definition invariant (s : t) : Prop :=
  totalDimension s = product (dimensions s) /\
  rank s = Z.of_nat (length (dimensions s)).

(** The invariant of the data model: positive factors, [rank] the number
    of factors, [totalDimension] their product (an [int]). *)
Definition valid (s : t) : Prop :=
  _rank s = Z.of_nat (length (_dimensions s)) /\
  Forall is_dim (_dimensions s) /\
  _dim s = product (_dimensions s) /\
  product (_dimensions s) <= INT_MAX.

End HilbertSpace.

(** ** Scalars and matrices of Eigen

    The arithmetic of [double] is a parameter: the loops and the checks are
    stated for every implementation of the operations below; they are run on
    exact rationals ([Exact]) and reasoned about on real numbers
    ([ExactReal]).  Rounding is not modelled.  [std::complex<double>] is a
    pair of such scalars with the textbook operations; the matrix operations
    of Eigen that the sources call are the textbook ones, sums taken from the
    first term to the last. *)

Class Scalar (D : Type) : Type := {
  d_zero : D;
  d_one : D;
  d_epsilon : D;      (* the literal 1.0e-15 of quantum_state.cpp *)
  d_precision : D;    (* NumTraits<double>::dummy_precision(), 1e-12 *)
  d_add : D -> D -> D;
  d_sub : D -> D -> D;
  d_mul : D -> D -> D;
  d_div : D -> D -> D;
  d_opp : D -> D;
  d_abs : D -> D;
  d_sqrt : D -> D;
  d_ltb : D -> D -> bool;
  d_leb : D -> D -> bool
}.

Record complex (D : Type) : Type := Complex { re : D; im : D }.
Arguments Complex {D} re im.
Arguments re {D} c.
Arguments im {D} c.

(** A matrix is the list of its rows. *)
Abbreviation matrix D := (list (list (complex D))).

Module Eigen.
Section Eigen.
Context {D : Type} `{Scalar D}.
Abbreviation Matrix := (matrix D).

Definition czero : complex D := Complex d_zero d_zero.
Definition creal (x : D) : complex D := Complex x d_zero.
Definition cadd (a b : complex D) : complex D :=
  Complex (d_add (re a) (re b)) (d_add (im a) (im b)).
Definition csub (a b : complex D) : complex D :=
  Complex (d_sub (re a) (re b)) (d_sub (im a) (im b)).
Definition cmul (a b : complex D) : complex D :=
  Complex (d_sub (d_mul (re a) (re b)) (d_mul (im a) (im b)))
          (d_add (d_mul (re a) (im b)) (d_mul (im a) (re b))).
Definition cconj (a : complex D) : complex D := Complex (re a) (d_opp (im a)).
Definition cdiv_real (a : complex D) (x : D) : complex D :=
  Complex (d_div (re a) x) (d_div (im a) x).
Definition abs2 (a : complex D) : D :=
  d_add (d_mul (re a) (re a)) (d_mul (im a) (im a)).
Definition cabs (a : complex D) : D := d_sqrt (abs2 a).

Definition rows (m : Matrix) : nat := length m.
Definition cols (m : Matrix) : nat :=
  match m with
  | [] => O
  | r :: _ => length r
  end.

(** [m(i, j)] *)
Definition coeff (m : Matrix) (i j : Z) : result (complex D) :=
  if (i <? 0) || (j <? 0) then Throw Undefined
  else r ← at_ m (Z.to_nat i); at_ r (Z.to_nat j).

(** [m(i, j) += c] *)
Definition add_coeff (m : Matrix) (i j : Z) (c : complex D) : result Matrix :=
  if (i <? 0) || (j <? 0) then Throw Undefined
  else r ← at_ m (Z.to_nat i);
       x ← at_ r (Z.to_nat j);
       r' ← put r (Z.to_nat j) (cadd x c);
       put m (Z.to_nat i) r'.

(** The coefficient at row [i], column [j]; zero outside the matrix. *)
Definition entry (m : Matrix) (i j : nat) : complex D :=
  default czero (m !! i ≫= fun r => r !! j).

Definition has_length (c : nat) (row : list (complex D)) : Prop :=
  length row = c.

Definition is_shape (r c : nat) (m : Matrix) : Prop :=
  length m = r /\ Forall (has_length c) m.

(** [MatrixXcd res(r, c); res.setZero()] *)
Definition Zero (r c : nat) : Matrix := replicate r (replicate c czero).

Definition sum (l : list (complex D)) : complex D := foldl cadd czero l.

Definition transpose (m : Matrix) : Matrix :=
  (fun j => (fun r => default czero (r !! j)) <$> m) <$> seq 0 (cols m).

Definition adjoint (m : Matrix) : Matrix :=
  (fun r : list (complex D) => cconj <$> r) <$> transpose m.

Definition mul (a b : Matrix) : Matrix :=
  (fun r => (fun c => sum (zip_with cmul r c)) <$> transpose b) <$> a.

Definition sub (a b : Matrix) : Matrix := zip_with (zip_with csub) a b.

(** Modelled from the spec: [KroneckerTensor::product] is declared in
    kronecker_tensor.h, which is not at hand.  The spec has it as the
    Kronecker product of the two matrices, the basis of the first being the
    outer, slower-varying factor: the coefficient at row (i, k) and column
    (j, l) is the product of [a(i, j)] and [b(k, l)]. *)
Definition kronecker (a b : Matrix) : Matrix :=
  ra ← a; (fun rb : list (complex D) => x ← ra; cmul x <$> rb) <$> b.

Definition diagonal (m : Matrix) : list (complex D) :=
  imap (fun i r => default czero (r !! i)) m.

Definition trace (m : Matrix) : complex D := sum (diagonal m).

(** The trace of the square of an [n] x [n] matrix, coefficient by
    coefficient: the sum over i of the sum over k of [m(i, k) * m(k, i)]. *)
Definition trace_of_square (n : nat) (m : Matrix) : complex D :=
  sum ((fun i => sum ((fun k => cmul (entry m i k) (entry m k i)) <$> seq 0 n))
         <$> seq 0 n).

Definition squaredNorm (m : Matrix) : D :=
  foldl d_add d_zero (abs2 <$> concat m).

(** [m.normalize()]: division by the norm, whatever the norm is *)
Definition normalize (m : Matrix) : Matrix :=
  let n := d_sqrt (squaredNorm m) in
  (fun r : list (complex D) => (fun z => cdiv_real z n) <$> r) <$> m.

Definition d_min (x y : D) : D := if d_ltb y x then y else x.

(** [a.isApprox(b)]:
    ||a - b||^2 <= prec^2 * min(||a||^2, ||b||^2) *)
Definition isApprox (a b : Matrix) : bool :=
  d_leb (squaredNorm (sub a b))
        (d_mul (d_mul d_precision d_precision)
               (d_min (squaredNorm a) (squaredNorm b))).

End Eigen.

(** [SelfAdjointEigenSolver<MatrixXcd> solver(matr)]: the eigenvalues and
    eigenvectors when [solver.info()] is [Success]. *)
Class SelfAdjointEigenSolver (D : Type) : Type :=
  compute : matrix D -> option (list D * matrix D).

End Eigen.

(** ** quantum_state.cpp *)

Module QuantumState.
Import HilbertSpace Eigen.

Record t (D : Type) : Type := mk {
  _density : matrix D;
  _space : HilbertSpace.t;
  _eigenValues : list D;
  _eigenVectors : matrix D
}.
Arguments mk {D} _ _ _ _.
Arguments _density {D} _.
Arguments _space {D} _.
Arguments _eigenValues {D} _.
Arguments _eigenVectors {D} _.

(** A member function runs on [*this] and leaves it in some state, also
    when it throws. *)
Definition method (D A : Type) : Type := t D -> result A * t D.

#[global] Instance method_ret {D} : MRet (method D) := fun A a this => (Ok a, this).
#[global] Instance method_bind {D} : MBind (method D) := fun A B f m this =>
  match m this with
  | (Ok a, this') => f a this'
  | (Throw e, this') => (Throw e, this')
  end.

Definition throw {D A} (e : exn) : method D A := fun this => (Throw e, this).
Definition get {D} : method D (t D) := fun this => (Ok this, this).
Definition set_density {D} (m : matrix D) : method D unit := fun this =>
  (Ok (), mk m (_space this) (_eigenValues this) (_eigenVectors this)).
Definition set_space {D} (sp : HilbertSpace.t) : method D unit := fun this =>
  (Ok (), mk (_density this) sp (_eigenValues this) (_eigenVectors this)).
Definition set_eigen {D} (vals : list D) (vecs : matrix D) : method D unit :=
  fun this => (Ok (), mk (_density this) (_space this) vals vecs).

Section QuantumState.
Context {D : Type} `{Scalar D} `{!SelfAdjointEigenSolver D}.

Definition _checkMatrixIsSquare (matr : matrix D) : method D unit :=
  if decide (cols matr = rows matr) then mret ()
  else throw InvalidArgument.

Definition _checkMatrixIsSelfAdjoined (matr : matrix D) : bool :=
  isApprox matr (adjoint matr).

Definition _calculateEigenValuesAndVectors (matr : matrix D) : method D unit :=
  if negb (_checkMatrixIsSelfAdjoined matr) then throw InvalidArgument
  else match compute matr with
       | None => throw RuntimeError
       | Some (values, vectors) => set_eigen values vectors
       end.

(** The loop over [_eigenValues] throws at the first eigenvalue that is
    farther than 1e-15 from zero and negative. *)
Definition _checkMatrixIsDensityMatrix (matr : matrix D) : method D unit :=
  this ← get;
  if existsb (fun v => d_ltb d_epsilon (d_abs v) && d_ltb v d_zero)
             (_eigenValues this)
  then throw InvalidArgument
  else if d_ltb d_epsilon (cabs (csub (trace matr) (Complex d_one d_zero)))
  then throw InvalidArgument
  else mret ().

Definition _checkSpaceDimension (matr : matrix D) (space : HilbertSpace.t)
  : method D unit :=
  if decide (totalDimension space = Z.of_nat (rows matr)) then mret ()
  else throw InvalidArgument.

(** What the claims need of a valid state: a valid space and a density
    matrix of its total dimension. *)
Definition valid (this : t D) : Prop :=
  HilbertSpace.valid (_space this) /\
  is_shape (Z.to_nat (totalDimension (_space this)))
           (Z.to_nat (totalDimension (_space this))) (_density this).

(** The members before the constructor body runs: empty matrices and the
    default [HilbertSpace]. *)
Definition uninitialized : t D := mk [] HilbertSpace.construct [] [].

(** [QuantumState::QuantumState(MatrixXcd matr, const HilbertSpace& space)];
    no object exists when the body throws. *)
Definition construct (matr : matrix D) (space : HilbertSpace.t) : result (t D) :=
  let body : method D unit :=
    _ ← (if decide (cols matr = 1%nat) then
           let matr := normalize matr in
           set_density (mul matr (transpose matr))
         else
           _ ← _checkMatrixIsSquare matr;
           set_density matr);
    this ← get;
    _ ← _calculateEigenValuesAndVectors (_density this);
    _ ← _checkMatrixIsDensityMatrix (_density this);
    _ ← _checkSpaceDimension (_density this) space;
    set_space space in
  match body uninitialized with
  | (Ok _, this) => Ok this
  | (Throw e, _) => Throw e
  end.

(** [void QuantumState::setMatrix(MatrixXcd matr)] *)
Definition setMatrix (matr : matrix D) : method D unit :=
  _ ← _checkMatrixIsSquare matr;
  this ← get;
  _ ← _checkSpaceDimension matr (_space this);
  _ ← _calculateEigenValuesAndVectors matr;
  _ ← _checkMatrixIsDensityMatrix matr;
  set_density matr.

(** [bool QuantumState::isPure() const] *)
Definition isPure (this : t D) : bool :=
  let square := mul (_density this) (_density this) in
  d_ltb (cabs (csub (trace square) (Complex d_one d_zero))) d_epsilon.

(** Getters *)
Definition space (this : t D) : HilbertSpace.t := _space this.
Definition densityMatrix (this : t D) : matrix D := _density this.
Definition eigenValues (this : t D) : list D := _eigenValues this.
Definition eigenVectors (this : t D) : matrix D := _eigenVectors this.

Definition eqb (this other : t D) : bool :=
  isApprox (_density this) (_density other)
  && HilbertSpace.eqb (_space this) (_space other).

Definition neqb (this other : t D) : bool := negb (eqb this other).

(** Modelled from the spec: [HilbertSpace::getBasisVector], called at line
    95, is declared in hilbert_space.h and defined in no source file at
    hand.  The spec reads
    [getBasisVector(l).transpose() * _density * getBasisVector(r)] as the
    matrix element of the density matrix between the basis vectors of the
    two multi-indices, that is its coefficient at their flat indices. *)
Definition matrixElement (space : HilbertSpace.t) (density : matrix D)
    (l r : list Z) : result (complex D) :=
  a ← getIndex space l;
  b ← getIndex space r;
  coeff density a b.

(** Lines 79-84: [vecRightIndex] is [vecRightRed] with the coordinate of
    [vecLeftIndex] at [index] put in. *)
Definition rightIndex_step (index : Z) (vecLeftIndex vecRightRed : list Z)
    (i : nat) (vecRightIndex : list Z) : result (list Z) :=
  if Z.of_nat i <? index then
    v ← at_ vecRightRed i; put vecRightIndex i v
  else if index <? Z.of_nat i then
    v ← at_ vecRightRed (i - 1); put vecRightIndex i v
  else
    v ← at_ vecLeftIndex (Z.to_nat index); put vecRightIndex i v.

(** Lines 87-92: [vecLeftRed] is [vecLeftIndex] without the coordinate at
    [index]. *)
Definition leftRed_step (index : Z) (vecLeftIndex : list Z)
    (i : nat) (vecLeftRed : list Z) : result (list Z) :=
  if Z.of_nat i <? index then
    v ← at_ vecLeftIndex i; put vecLeftRed i v
  else if index <? Z.of_nat i then
    v ← at_ vecLeftIndex i; put vecLeftRed (i - 1) v
  else Ok vecLeftRed.

(** Lines 72-98, the body of the two loops. *)
Definition partialTrace_body (this : t D) (index : Z) (newSpace : HilbertSpace.t)
    (row col : nat) (res : matrix D) : result (matrix D) :=
  vecLeftIndex ← getVector (_space this) (Z.of_nat row);
  let vecRightIndex := vecLeftIndex in
  vecRightRed ← getVector newSpace (Z.of_nat col);
  let vecLeftRed := vecRightRed in
  vecRightIndex ← for_ 0 (length vecRightIndex)
                    (rightIndex_step index vecLeftIndex vecRightRed) vecRightIndex;
  vecLeftRed ← for_ 0 (length vecRightIndex)
                 (leftRed_step index vecLeftIndex) vecLeftRed;
  coef ← matrixElement (_space this) (_density this) vecLeftIndex vecRightIndex;
  r ← getIndex newSpace vecLeftRed;
  c ← getIndex newSpace vecRightRed;
  add_coeff res r c coef.

(** Lines 58-99: the reduced space and the matrix handed to the constructor. *)
Definition partialTrace_matrix (this : t D) (index : Z)
  : result (matrix D * HilbertSpace.t) :=
  let dims := dimensions (_space this) in
  dims ← (if decide (Z.to_nat index < length dims)%nat
          then Ok (delete (Z.to_nat index) dims) else Throw Undefined);
  newSpace ← construct_dimensions dims;
  n ← (if totalDimension newSpace <? 0 then Throw Undefined
       else Ok (Z.to_nat (totalDimension newSpace)));
  res ← for_ 0 (Z.to_nat (totalDimension (_space this)))
          (fun row res =>
             d ← dimension (_space this) index;
             bound ← (if d =? 0 then Throw Undefined
                      else Ok (Z.quot (totalDimension (_space this)) d));
             for_ 0 (Z.to_nat bound)
               (partialTrace_body this index newSpace row) res)
          (Zero n n);
  Ok (res, newSpace).

(** [QuantumState QuantumState::partialTrace(int index) const] *)
Definition partialTrace (index : Z) : method D (t D) := fun this =>
  (if index <? 0 then Throw InvalidArgument
   else if rank (_space this) <=? index then Throw InvalidArgument
   else '(res, newSpace) ← partialTrace_matrix this index;
        construct res newSpace,
   this).

End QuantumState.
End QuantumState.

(** ** Exact rational arithmetic

    An implementation of the scalars on which the definitions above run:
    rationals in lowest terms, the square root to 20 decimal places (exact on
    squares of rationals), and an eigen solver for diagonal matrices, whose
    eigenvalues are the diagonal entries, in increasing order, and whose
    eigenvectors are the matching unit vectors; on any other matrix it
    reports failure.  A quotient by zero is zero here. *)

Module Exact.
Import Eigen.

Definition Qsqrt (q : Q) : Q :=
  let q := Qred q in
  Qred (Z.sqrt (Qnum q * Z.pos (Qden q) * 10 ^ 40) # (Qden q * 10 ^ 20))%Q.

#[global] Instance Q_scalar : Scalar Q := {|
  d_zero := 0%Q;
  d_one := 1%Q;
  d_epsilon := (1 # 10 ^ 15)%Q;
  d_precision := (1 # 10 ^ 12)%Q;
  d_add x y := Qred (x + y)%Q;
  d_sub x y := Qred (x - y)%Q;
  d_mul x y := Qred (x * y)%Q;
  d_div x y := Qred (x / y)%Q;
  d_opp x := Qred (- x)%Q;
  d_abs x := Qred (Qabs x);
  d_sqrt := Qsqrt;
  d_ltb x y := negb (Qle_bool y x);
  d_leb := Qle_bool
|}.

Definition is_zero (z : complex Q) : bool :=
  Qeq_bool (re z) 0%Q && Qeq_bool (im z) 0%Q.

Definition is_diagonal (m : matrix Q) : bool :=
  forallb (fun '(i, r) =>
             forallb (fun '(j, z) => (i =? j)%nat || is_zero z) (imap pair r))
          (imap pair m).

Definition by_value (a b : Q * nat) : Prop := Is_true (Qle_bool a.1 b.1).

#[global] Instance diagonal_solver : SelfAdjointEigenSolver Q := fun m =>
  if is_diagonal m && forallb (fun z => Qeq_bool (im z) 0%Q) (diagonal m) then
    let sorted := merge_sort by_value (imap (fun i z => (re z, i)) (diagonal m)) in
    Some (fst <$> sorted,
          (fun r => (fun '(_, i) => if (i =? r)%nat then Complex 1%Q 0%Q
                                    else Complex 0%Q 0%Q) <$> sorted)
            <$> seq 0 (length m))
  else None.

Definition real (q : Q) : complex Q := Complex q 0%Q.
Definition imag (q : Q) : complex Q := Complex 0%Q q.

(** The diagonal matrix with the given diagonal. *)
Definition diag (l : list Q) : matrix Q :=
  imap (fun i _ => imap (fun j x => if (i =? j)%nat then real x else real 0%Q) l) l.

End Exact.

(** ** Exact real arithmetic

    The scalars as real numbers: what the state functions compute when no
    operation rounds. *)

Module ExactReal.

Definition Rltb (x y : R) : bool := if Rlt_dec x y then true else false.
Definition Rleb (x y : R) : bool := if Rle_dec x y then true else false.

#[global] Instance R_scalar : Scalar R := {|
  d_zero := 0%R;
  d_one := 1%R;
  d_epsilon := (/ 10 ^ 15)%R;
  d_precision := (/ 10 ^ 12)%R;
  d_add := Rplus;
  d_sub := Rminus;
  d_mul := Rmult;
  d_div := Rdiv;
  d_opp := Ropp;
  d_abs := Rabs;
  d_sqrt := sqrt;
  d_ltb := Rltb;
  d_leb := Rleb
|}.

(** [g 0 + g 1 + ... + g (n - 1)] *)
Fixpoint Rsum (g : nat -> R) (n : nat) : R :=
  match n with
  | O => 0%R
  | S n' => (Rsum g n' + g n')%R
  end.

(** The squared modulus of a complex number. *)
Definition normsq (z : complex R) : R := (re z * re z + im z * im z)%R.

(** The state of the one-dimensional space. *)
Definition point : QuantumState.t R :=
  QuantumState.mk [[Complex 1%R 0%R]]
    {| HilbertSpace._rank := 1; HilbertSpace._dim := 1;
       HilbertSpace._dimensions := [1] |}
    [1%R] [[Complex 1%R 0%R]].

(** The equal mixture of |00><00| and |11><11| on two qubits: the density
    matrix diag(1/2, 0, 0, 1/2), its eigenvalues in increasing order and the
    matching basis vectors as columns. *)
Definition correlated : QuantumState.t R :=
  let o := Complex 0%R 0%R in
  let i := Complex 1%R 0%R in
  let h := Complex (/ 2)%R 0%R in
  QuantumState.mk
    [[h; o; o; o]; [o; o; o; o]; [o; o; o; o]; [o; o; o; h]]
    {| HilbertSpace._rank := 2; HilbertSpace._dim := 4;
       HilbertSpace._dimensions := [2; 2] |}
    [0%R; 0%R; (/ 2)%R; (/ 2)%R]
    [[o; o; i; o]; [i; o; o; o]; [o; i; o; o]; [o; o; o; i]].

(** The projector on the unit vector (3/5, 4/5) of one qubit, with its
    eigenvalues 0 and 1 and the eigenvectors (-4/5, 3/5) and (3/5, 4/5) as
    columns; and the maximally mixed state of one qubit. *)
Definition tilted : QuantumState.t R :=
  QuantumState.mk
    [[Complex (9 / 25)%R 0%R; Complex (12 / 25)%R 0%R];
     [Complex (12 / 25)%R 0%R; Complex (16 / 25)%R 0%R]]
    {| HilbertSpace._rank := 1; HilbertSpace._dim := 2;
       HilbertSpace._dimensions := [2] |}
    [0%R; 1%R]
    [[Complex (- 4 / 5)%R 0%R; Complex (3 / 5)%R 0%R];
     [Complex (3 / 5)%R 0%R; Complex (4 / 5)%R 0%R]].

Definition unpolarized : QuantumState.t R :=
  QuantumState.mk
    [[Complex (/ 2)%R 0%R; Complex 0%R 0%R];
     [Complex 0%R 0%R; Complex (/ 2)%R 0%R]]
    {| HilbertSpace._rank := 1; HilbertSpace._dim := 2;
       HilbertSpace._dimensions := [2] |}
    [(/ 2)%R; (/ 2)%R]
    [[Complex 1%R 0%R; Complex 0%R 0%R];
     [Complex 0%R 0%R; Complex 1%R 0%R]].

End ExactReal.

(** ** Concrete spaces and states, in exact arithmetic *)

Module Examples.
Import HilbertSpace Eigen Exact.

(** [HilbertSpace(2)], [HilbertSpace({2, 2})], [HilbertSpace({2, 1})] *)
Definition space2 : HilbertSpace.t :=
  {| _rank := 1; _dim := 2; _dimensions := [2] |}.
Definition space22 : HilbertSpace.t :=
  {| _rank := 2; _dim := 4; _dimensions := [2; 2] |}.
Definition space21 : HilbertSpace.t :=
  {| _rank := 2; _dim := 2; _dimensions := [2; 1] |}.

(** The state a call returned, if it returned one. *)
Definition returned (r : result (QuantumState.t Q)) : QuantumState.t Q :=
  match r with
  | Ok st => st
  | Throw _ => QuantumState.uninitialized
  end.

(** |0><0| on one qubit. *)
Definition up : QuantumState.t Q :=
  returned (QuantumState.construct (diag [1; 0]%Q) space2).

(** diag(1/2, 0, 1/4, 1/4) on two qubits. *)
Definition mixed : QuantumState.t Q :=
  returned (QuantumState.construct (diag [1 # 2; 0; 1 # 4; 1 # 4]%Q) space22).

(** diag(1 + 16e-16, 0, -8e-16, -8e-16) on two qubits: trace 1, every
    eigenvalue within 1e-15 of zero or positive. *)
Definition skewed : QuantumState.t Q :=
  returned (QuantumState.construct
              (diag [1 + (16 # 10 ^ 16); 0; - (8 # 10 ^ 16); - (8 # 10 ^ 16)]%Q)
              space22).

(** diag(1, 5e-16) over the factors 2 and 1: trace within 1e-15 of 1. *)
Definition heavy : QuantumState.t Q :=
  returned (QuantumState.construct (diag [1; 5 # 10 ^ 16]%Q) space21).

(** The maximally mixed state of one qubit. *)
Definition balanced : QuantumState.t Q :=
  returned (QuantumState.construct (diag [1 # 2; 1 # 2]%Q) space2).

(** The column (3, 4i). *)
Definition column34i : matrix Q := [[real 3%Q]; [imag 4%Q]].

End Examples.

(** * Properties of the index algebra *)

Module MachineIntFacts.

Lemma to_int_id z : is_int z -> to_int z = z.
Proof.
  unfold is_int, to_int, INT_MAX. intros H.
  rewrite Z.mod_small; lia.
Qed.

Lemma to_int_is_int z : is_int (to_int z).
Proof.
  unfold is_int, to_int, INT_MAX.
  pose proof (Z.mod_pos_bound (z + 2 ^ 31) (2 ^ 32)). lia.
Qed.

Lemma to_int_eqm x y : x mod 2 ^ 32 = y mod 2 ^ 32 -> to_int x = to_int y.
Proof.
  unfold to_int. intros H.
  rewrite (Z.add_mod x), (Z.add_mod y), H by lia. reflexivity.
Qed.

Lemma to_int_mod x : to_int x mod 2 ^ 32 = x mod 2 ^ 32.
Proof.
  unfold to_int. rewrite (Z.mod_eq (x + 2 ^ 31)) by lia.
  replace (x + 2 ^ 31 - 2 ^ 32 * ((x + 2 ^ 31) / 2 ^ 32) - 2 ^ 31)
    with (x + (- ((x + 2 ^ 31) / 2 ^ 32)) * 2 ^ 32) by lia.
  apply Z.mod_add. lia.
Qed.

Lemma to_uint_mod x : to_uint x mod 2 ^ 32 = x mod 2 ^ 32.
Proof. unfold to_uint. apply Z.mod_mod. lia. Qed.

Lemma to_int_mul_uint a b : to_int (to_uint a * b) = to_int (a * b).
Proof.
  apply to_int_eqm. rewrite Z.mul_mod, to_uint_mod, <- Z.mul_mod by lia.
  reflexivity.
Qed.

Lemma to_int_mul_l a b : to_int (to_int a * b) = to_int (a * b).
Proof.
  apply to_int_eqm. rewrite Z.mul_mod, to_int_mod, <- Z.mul_mod by lia.
  reflexivity.
Qed.

Lemma to_int_mul_r a b : to_int (a * to_int b) = to_int (a * b).
Proof. rewrite Z.mul_comm, to_int_mul_l, Z.mul_comm. reflexivity. Qed.

Lemma to_int_add_l a b : to_int (to_int a + b) = to_int (a + b).
Proof.
  apply to_int_eqm. rewrite Z.add_mod, to_int_mod, <- Z.add_mod by lia.
  reflexivity.
Qed.

Lemma to_int_add_r a b : to_int (a + to_int b) = to_int (a + b).
Proof. rewrite Z.add_comm, to_int_add_l, Z.add_comm. reflexivity. Qed.

Lemma to_int_idemp a : to_int (to_int a) = to_int a.
Proof. apply to_int_id, to_int_is_int. Qed.


End MachineIntFacts.

Module HilbertSpaceFacts.
Import HilbertSpace MachineIntFacts Examples.

(** *** Products of dimensions *)

Lemma product_cons d ds : product (d :: ds) = d * product ds.
Proof. reflexivity. Qed.

Lemma product_app ds es : product (ds ++ es) = product ds * product es.
Proof.
  induction ds as [|d ds IH]; simpl.
  - destruct (product es); reflexivity.
  - change (foldr Z.mul 1 (ds ++ es)) with (product (ds ++ es)).
    change (foldr Z.mul 1 ds) with (product ds). rewrite IH. lia.
Qed.

Lemma product_pos ds : Forall is_dim ds -> 1 <= product ds.
Proof.
  induction 1 as [|d ds Hd _ IH]; [reflexivity|].
  rewrite product_cons. unfold is_dim in Hd. nia.
Qed.

Lemma is_dim_nonzero d : is_dim d -> (d =? 0) = false.
Proof. unfold is_dim. intros H. apply Z.eqb_neq. lia. Qed.

(** *** Digits *)

Lemma length_decompose ds x : length (decompose ds x) = length ds.
Proof. induction ds; simpl; congruence. Qed.

Lemma decompose_range ds x :
  Forall is_dim ds ->
  Forall2 (fun v d => 0 <= v < d) (decompose ds x) ds.
Proof.
  induction 1 as [|d ds Hd _ IH]; simpl; constructor; [|exact IH].
  apply Z.mod_pos_bound. unfold is_dim in Hd. lia.
Qed.

(** Composition after decomposition is reduction modulo the product. *)
Lemma compose_decompose ds x :
  Forall is_dim ds -> compose ds (decompose ds x) = x mod product ds.
Proof.
  induction 1 as [|d ds Hd Hds IH]; simpl.
  - symmetry. apply Z.mod_1_r.
  - change (foldr Z.mul 1 ds) with (product ds).
    rewrite IH. pose proof (product_pos ds Hds). unfold is_dim in Hd.
    rewrite (Z.mul_comm d), Z.rem_mul_r by lia. lia.
Qed.

(** Decomposition after composition gives the digits back. *)
Lemma compose_range ds vs :
  Forall is_dim ds -> Forall2 (fun v d => 0 <= v < d) vs ds ->
  0 <= compose ds vs < product ds.
Proof.
  intros Hds H. induction H as [|v d vs ds Hv _ IH]; simpl; [lia|].
  change (foldr Z.mul 1 ds) with (product ds).
  apply Forall_cons in Hds as [Hd Hds]. specialize (IH Hds).
  pose proof (product_pos ds Hds). nia.
Qed.

(** The digits only depend on the number modulo the product. *)
Lemma decompose_add_multiple ds x k :
  Forall is_dim ds -> decompose ds (x + k * product ds) = decompose ds x.
Proof.
  intros Hds. revert k. induction Hds as [|d ds Hd Hds IH]; intros k; simpl;
    [reflexivity|].
  change (foldr Z.mul 1 ds) with (product ds).
  pose proof (product_pos ds Hds) as Hp. unfold is_dim in Hd.
  f_equal.
  - replace (x + k * (d * product ds)) with (x + k * d * product ds) by lia.
    rewrite Z.div_add, Z.mod_add by lia. reflexivity.
  - replace (x + k * (d * product ds)) with (x + k * d * product ds) by lia.
    apply IH.
Qed.

Lemma decompose_compose ds vs :
  Forall is_dim ds -> Forall2 (fun v d => 0 <= v < d) vs ds ->
  decompose ds (compose ds vs) = vs.
Proof.
  intros Hds H. induction H as [|v d vs ds Hv Hvs IH]; simpl; [reflexivity|].
  change (foldr Z.mul 1 ds) with (product ds).
  apply Forall_cons in Hds as [Hd Hds]. specialize (IH Hds).
  pose proof (compose_range ds vs Hds Hvs) as Hc.
  pose proof (product_pos ds Hds) as Hp.
  f_equal.
  - rewrite Z.add_comm, Z.div_add, Z.div_small by lia. apply Z.mod_small. lia.
  - rewrite Z.add_comm, decompose_add_multiple by assumption. exact IH.
Qed.

(** *** The loops compute the digits and the number *)

Lemma getVector_loop_spec dims x :
  Forall is_dim dims -> 0 <= x <= INT_MAX ->
  forall (n : nat) (vec : list Z),
    (n <= length dims)%nat -> length vec = length dims ->
    drop n vec = decompose (drop n dims) x ->
    getVector_loop dims n vec (x / product (drop n dims))
    = Ok (decompose dims x).
Proof.
  intros Hds Hx. induction n as [|i IH]; intros vec Hn Hlen Hvec; simpl.
  - rewrite !drop_0 in Hvec. congruence.
  - destruct (lookup_lt_is_Some_2 dims i) as [d Hd]; [lia|].
    rewrite Hd. pose proof (Forall_lookup_1 _ _ _ _ Hds Hd) as Hdim.
    rewrite (is_dim_nonzero _ Hdim).
    rewrite (drop_S _ _ _ Hd), product_cons in IH. simpl in IH.
    change (foldr Z.mul 1 (drop (S i) dims)) with (product (drop (S i) dims)) in IH.
    assert (Hp : 1 <= product (drop (S i) dims))
      by (apply product_pos, Forall_drop, Hds).
    unfold is_dim in Hdim.
    rewrite Z.div_div by lia.
    rewrite (Z.mul_comm (product _) d).
    apply IH; [lia | by rewrite length_insert |].
    assert (Hq : 0 <= x / product (drop (S i) dims) <= x).
    { split; [apply Z.div_pos; lia|]. apply Z.div_le_upper_bound; nia. }
    unfold to_uint. rewrite (Z.mod_small (x / _) (2 ^ 32))
      by (unfold INT_MAX in Hx; lia).
    erewrite drop_S; [|apply list_lookup_insert_eq; lia].
    rewrite drop_insert_lt by lia. congruence.
Qed.

Lemma getVector_spec s x :
  wf s -> 0 <= x <= INT_MAX ->
  getVector s x = Ok (decompose (_dimensions s) x).
Proof.
  intros (Hr & Hds & _) Hx. unfold getVector. rewrite Hr, Nat2Z.id.
  pose proof (getVector_loop_spec _ x Hds Hx (length (_dimensions s))
                (replicate (length (_dimensions s)) 0)) as H.
  rewrite drop_all, Z.div_1_r in H. apply H.
  - lia.
  - apply length_replicate.
  - rewrite drop_ge; [reflexivity | by rewrite length_replicate].
Qed.

Lemma getIndex_loop_spec dims vec :
  length vec = length dims ->
  forall n : nat,
    (n <= length dims)%nat ->
    getIndex_loop dims vec n
      (to_int (compose (drop n dims) (drop n vec)))
      (to_int (product (drop n dims)))
    = Ok (to_int (compose dims vec)).
Proof.
  intros Hlen. induction n as [|i IH]; intros Hn; simpl.
  - by rewrite !drop_0.
  - destruct (lookup_lt_is_Some_2 dims i) as [d Hd]; [lia|].
    destruct (lookup_lt_is_Some_2 vec i) as [v Hv]; [lia|].
    rewrite Hd, Hv.
    rewrite (drop_S _ _ _ Hd), (drop_S _ _ _ Hv) in IH. simpl in IH.
    change (foldr Z.mul 1 (drop (S i) dims)) with (product (drop (S i) dims)) in IH.
    rewrite to_int_mul_l, to_int_mul_r, to_int_add_r, to_int_add_l.
    rewrite to_int_mul_uint, to_int_mul_l.
    rewrite (Z.add_comm (compose _ _)), (Z.mul_comm (product _) d).
    apply IH. lia.
Qed.

Lemma getIndex_spec s vec :
  _rank s = Z.of_nat (length (_dimensions s)) ->
  length vec = length (_dimensions s) -> (1 <= length vec)%nat ->
  getIndex s vec = Ok (to_int (compose (_dimensions s) vec)).
Proof.
  intros Hr Hlen Hpos. unfold getIndex.
  rewrite bool_decide_eq_true_2 by lia.
  destruct (length vec) as [|m] eqn:Hm; [lia|].
  destruct (lookup_lt_is_Some_2 vec m) as [v Hv]; [lia|].
  destruct (lookup_lt_is_Some_2 (_dimensions s) m) as [d Hd]; [lia|].
  replace (Z.to_nat (_rank s - 1)) with m by lia.
  rewrite Hv, Hd.
  pose proof (getIndex_loop_spec (_dimensions s) vec) as H.
  specialize (H ltac:(lia) m ltac:(lia)).
  rewrite (drop_S _ _ _ Hd), (drop_S _ _ _ Hv) in H.
  rewrite !drop_ge in H by lia. simpl in H.
  rewrite !Z.mul_1_r, Z.add_0_r in H. exact H.
Qed.

(** *** Constructors *)

Lemma construct_loop_spec ds acc :
  Forall is_dim ds -> is_int acc ->
  construct_loop ds acc = Ok (to_int (acc * product ds)).
Proof.
  intros Hds. revert acc. induction Hds as [|d ds Hd _ IH]; intros acc Hacc; simpl.
  - by rewrite Z.mul_1_r, to_int_id.
  - rewrite (is_dim_nonzero _ Hd), IH by apply to_int_is_int.
    change (foldr Z.mul 1 ds) with (product ds).
    rewrite to_int_mul_l, <- Z.mul_assoc, to_int_mul_uint. reflexivity.
Qed.

Lemma construct_loop_zero ds acc :
  Exists (fun d => d = 0) ds -> construct_loop ds acc = Throw InvalidArgument.
Proof.
  intros H. revert acc. induction H as [d ds Hd|d ds _ IH]; intros acc; simpl.
  - by rewrite Hd.
  - destruct (d =? 0); [reflexivity | apply IH].
Qed.

(** *** tensorWith *)

Lemma deref_Some (h : store) a s : h !! a = Some s -> deref h a = Ok s.
Proof. unfold deref. by intros ->. Qed.

Lemma tensorWith_loop_distinct this second o :
  this <> second ->
  forall (todo i : nat) (h : store) (s : t),
    h !! this = Some s -> h !! second = Some o ->
    (i + todo <= length (_dimensions o))%nat ->
    tensorWith_loop this second i todo h
    = Ok (<[this := {| _rank := _rank s; _dim := _dim s;
                       _dimensions := _dimensions s
                                        ++ take todo (drop i (_dimensions o)) |}]> h).
Proof.
  intros Hne. induction todo as [|todo IH]; intros i h s Hs Ho Hlen; simpl.
  - rewrite take_0, app_nil_r. f_equal. symmetry.
    rewrite insert_id; [reflexivity|]. by destruct s.
  - unfold deref. rewrite Hs, Ho. simpl.
    destruct (lookup_lt_is_Some_2 (_dimensions o) i) as [d Hd]; [lia|].
    rewrite Hd.
    rewrite (IH (S i) _ (push_back s d)).
    + rewrite insert_insert_eq. simpl.
      rewrite (drop_S _ _ _ Hd). simpl. by rewrite <- app_assoc.
    + apply lookup_insert_eq.
    + by rewrite lookup_insert_ne.
    + lia.
Qed.

Lemma tensorWith_distinct this second (h : store) s o :
  this <> second ->
  h !! this = Some s -> h !! second = Some o ->
  _rank o = Z.of_nat (length (_dimensions o)) ->
  tensorWith this second h
  = Ok (<[this := {| _rank := _rank s + _rank o;
                     _dim := to_int (_dim s * _dim o);
                     _dimensions := _dimensions s ++ _dimensions o |}]> h).
Proof.
  intros Hne Hs Ho Hr. unfold tensorWith, deref. rewrite Hs, Ho. simpl.
  rewrite lookup_insert_ne, Ho by done. simpl.
  erewrite tensorWith_loop_distinct; [| done | apply lookup_insert_eq
    | by rewrite lookup_insert_ne | lia].
  simpl. rewrite lookup_insert_eq, lookup_insert_ne, lookup_insert_ne, Ho by done.
  simpl. rewrite !insert_insert_eq. rewrite Hr, Nat2Z.id, drop_0, firstn_all.
  reflexivity.
Qed.

Lemma tensor_spec first second (h : store) a b :
  h !! first = Some a -> h !! second = Some b ->
  _rank b = Z.of_nat (length (_dimensions b)) ->
  tensor first second h
  = Ok ({| _rank := _rank a + _rank b;
           _dim := to_int (_dim a * _dim b);
           _dimensions := _dimensions a ++ _dimensions b |}, h).
Proof.
  intros Ha Hb Hr. unfold tensor. rewrite (deref_Some _ _ _ Ha). simpl.
  set (space := fresh (dom h)).
  assert (Hfresh : h !! space = None) by apply not_elem_of_dom, is_fresh.
  assert (Hne : space <> second) by congruence.
  erewrite tensorWith_distinct;
    [| done | apply lookup_insert_eq | by rewrite lookup_insert_ne | done].
  simpl. erewrite deref_Some by apply lookup_insert_eq. simpl.
  rewrite insert_insert_eq, delete_insert_eq, delete_id by done. reflexivity.
Qed.

(** *** Validity *)

Lemma valid_wf s : valid s -> wf s.
Proof.
  intros (Hr & Hds & Hd & Hmax). repeat split; [done..|]. right.
  rewrite Hd, to_int_id; [reflexivity|].
  pose proof (product_pos _ Hds). unfold is_int. lia.
Qed.

Lemma is_dim_le_product ds (i : nat) d :
  Forall is_dim ds -> ds !! i = Some d -> d <= product ds.
Proof.
  intros Hds. revert i. induction Hds as [|e ds He Hds IH]; intros [|i] H;
    simplify_eq/=; change (foldr Z.mul 1 ds) with (product ds);
    pose proof (product_pos _ Hds); unfold is_dim in He.
  - nia.
  - specialize (IH _ H). nia.
Qed.

(** [wf] holds of every space that the constructors build, and
    [tensorWith] between two distinct objects keeps it. *)
Lemma wf_construct : wf construct.
Proof. split; [reflexivity|]. split; [constructor | by left]. Qed.

Lemma wf_construct_dim dim :
  is_dim dim -> exists s, construct_dim dim = Ok s /\ wf s.
Proof.
  intros Hdim. unfold construct_dim. rewrite (is_dim_nonzero _ Hdim).
  eexists. split; [reflexivity|]. split; [reflexivity|]. split; simpl.
  - constructor; [done | constructor].
  - right. unfold product. simpl. by rewrite Z.mul_1_r.
Qed.

Lemma wf_construct_dimensions ds :
  Forall is_dim ds -> exists s, construct_dimensions ds = Ok s /\ wf s.
Proof.
  intros Hds. unfold construct_dimensions.
  rewrite construct_loop_spec by (done || (unfold is_int, INT_MAX; lia)).
  eexists. split; [reflexivity|]. split; [reflexivity|]. split; simpl; [done|].
  right. by rewrite Z.mul_1_l.
Qed.

Lemma wf_tensorWith this second (h : store) a b :
  this <> second -> h !! this = Some a -> h !! second = Some b ->
  wf a -> wf b ->
  exists s, tensorWith this second h = Ok (<[this := s]> h) /\ wf s.
Proof.
  intros Hne Ha Hb (Hra & Hda & Hdima) (Hrb & Hdb & Hdimb).
  rewrite (tensorWith_distinct _ _ _ _ _ Hne Ha Hb Hrb).
  eexists. split; [reflexivity|]. split; [|split]; simpl.
  - rewrite length_app. lia.
  - by apply Forall_app.
  - destruct Hdima as [->| ->]; [by left|].
    destruct Hdimb as [->| ->]; [left; by rewrite Z.mul_0_r|].
    right. by rewrite to_int_mul_l, to_int_mul_r, product_app.
Qed.

(** *** The claims on HilbertSpace *)



(** C6.  The static [tensor] returns the space whose dimensions are those
    of the first operand followed by those of the second, whose rank is the
    sum of the ranks, and leaves the store, hence both operands (which may
    be one object), as they were. *)
Theorem tensor_concatenates (h : store) (first second : addr) (a b : t) :
  h !! first = Some a -> h !! second = Some b -> valid a -> valid b ->
  exists r : t,
    tensor first second h = Ok (r, h) /\
    dimensions r = dimensions a ++ dimensions b /\
    rank r = rank a + rank b.
Proof.
  intros Ha Hb _ (Hr & _). eexists. split; [by apply tensor_spec|]. done.
Qed.

(** C9.  The list constructor on the empty list gives rank 0 and total
    dimension 1, the default constructor rank 0 and total dimension 0, and
    [operator==] holds between the two. *)
Theorem empty_list_and_default_spaces :
  exists s : t,
    construct_dimensions [] = Ok s /\
    rank s = 0 /\ totalDimension s = 1 /\
    rank construct = 0 /\ totalDimension construct = 0 /\
    eqb s construct = true /\
    totalDimension s <> totalDimension construct.
Proof. eexists. repeat split. done. Qed.

Lemma valid_invariant s : valid s -> invariant s.
Proof. intros (Hr & _ & Hd & _). split; assumption. Qed.

(** C4, as stated, fails on the default-constructed space: its total
    dimension is 0, the product of its (no) dimensions is 1. *)
Lemma default_space_breaks_invariant : ~ invariant construct.
Proof. intros [H _]. discriminate H. Qed.

(** C4, amended.  [rank() == length of dimensions()] holds after every
    constructor; [totalDimension() == product of dimensions()] holds after
    the one-argument and the list constructor when the product is an [int];
    [tensorWith] with another object as argument keeps both when the product
    of the result is an [int].  The default constructor gives total
    dimension 0, and [tensorWith] on such a space keeps 0 while it takes
    over the argument's dimensions. *)
Theorem invariant_of_constructed
    (ds : list Z) (d : Z) (h : store) (this second : addr) (a b : t) :
  Forall is_dim ds -> product ds <= INT_MAX -> 1 <= d <= INT_MAX ->
  this <> second -> h !! this = Some a -> h !! second = Some b ->
  invariant a -> invariant b ->
  is_int (product (dimensions a ++ dimensions b)) ->
  (exists s, construct_dimensions ds = Ok s /\ invariant s) /\
  (exists s, construct_dim d = Ok s /\ invariant s) /\
  (rank construct = Z.of_nat (length (dimensions construct)) /\
   totalDimension construct = 0) /\
  (exists s, tensorWith this second h = Ok (<[this := s]> h) /\ invariant s) /\
  (exists s, tensorWith this second (<[this := construct]> h)
             = Ok (<[this := s]> h) /\
             rank s = Z.of_nat (length (dimensions s)) /\
             dimensions s = dimensions b /\ totalDimension s = 0).
Proof.
  intros Hds Hmax Hd Hne Ha Hb [Hda Hra] [Hdb Hrb] Hfit.
  unfold rank, totalDimension, dimensions in *.
  split; [|split; [|split; [|split]]].
  - unfold construct_dimensions.
    rewrite construct_loop_spec by (done || (unfold is_int, INT_MAX; lia)).
    simpl. eexists. split; [reflexivity|]. split; [|reflexivity].
    unfold totalDimension, dimensions. simpl. rewrite Z.mul_1_l.
    apply to_int_id. pose proof (product_pos _ Hds). unfold is_int. lia.
  - unfold construct_dim. rewrite (proj2 (Z.eqb_neq d 0)) by lia.
    eexists. split; [reflexivity|]. split; [|reflexivity].
    unfold totalDimension, dimensions, product. simpl. rewrite Z.mul_1_r.
    apply to_int_id. unfold is_int. lia.
  - done.
  - rewrite (tensorWith_distinct _ _ _ _ _ Hne Ha Hb Hrb).
    eexists. split; [reflexivity|].
    split; unfold totalDimension, rank, dimensions; simpl.
    + rewrite Hda, Hdb, <- product_app. by apply to_int_id.
    + rewrite length_app. lia.
  - rewrite (tensorWith_distinct this second _ construct b Hne);
      [| apply lookup_insert_eq | by rewrite lookup_insert_ne | done].
    rewrite insert_insert_eq. eexists. split; [reflexivity|].
    unfold rank, dimensions, totalDimension. simpl. done.
Qed.

(** *** The example spaces *)

Lemma space2_constructed : construct_dim 2 = Ok space2.
Proof. reflexivity. Qed.

Lemma space22_constructed : construct_dimensions [2; 2] = Ok space22.
Proof. reflexivity. Qed.

Lemma space21_constructed : construct_dimensions [2; 1] = Ok space21.
Proof. reflexivity. Qed.

Ltac prove_space_valid :=
  repeat split;
  [ repeat constructor; unfold is_dim, UINT_MAX; lia
  | vm_compute; discriminate ].

Lemma space2_valid : valid space2.
Proof. prove_space_valid. Qed.

Lemma space22_valid : valid space22.
Proof. prove_space_valid. Qed.

Lemma space21_valid : valid space21.
Proof. prove_space_valid. Qed.

(** The store with [space2] at address 0 and [space22] at address 1. *)
Lemma example_store_lookup :
  let h : gmap nat t := <[0%nat := space2]> (<[1%nat := space22]> ∅) in
  h !! 0%nat = Some space2 /\ h !! 1%nat = Some space22.
Proof. split; reflexivity. Qed.



(** C6 on one object passed as both operands. *)
Lemma tensor_concatenates_witness :
  exists r : t,
    tensor 0 0 (<[0%nat := space2]> (<[1%nat := space22]> ∅))
    = Ok (r, <[0%nat := space2]> (<[1%nat := space22]> ∅)) /\
    dimensions r = dimensions space2 ++ dimensions space2 /\
    rank r = rank space2 + rank space2.
Proof.
  apply (tensor_concatenates _ 0%nat 0%nat space2 space2);
    [reflexivity | reflexivity | apply space2_valid | apply space2_valid].
Defined.

(** C4, amended, at the list (2, 3), the dimension 2 and the store with
    [space2] at 0 and [space22] at 1. *)
Lemma invariant_of_constructed_witness :
  (exists s, construct_dimensions [2; 3] = Ok s /\ invariant s) /\
  (exists s, tensorWith 0 1 (<[0%nat := space2]> (<[1%nat := space22]> ∅))
             = Ok (<[0%nat := s]> (<[0%nat := space2]> (<[1%nat := space22]> ∅)))
             /\ invariant s).
Proof.
  destruct (invariant_of_constructed [2; 3] 2
              (<[0%nat := space2]> (<[1%nat := space22]> ∅)) 0%nat 1%nat
              space2 space22)
    as (Hlist & _ & _ & Htensor & _).
  - repeat constructor; unfold is_dim, UINT_MAX; lia.
  - vm_compute. discriminate.
  - vm_compute. split; discriminate.
  - discriminate.
  - reflexivity.
  - reflexivity.
  - apply valid_invariant, space2_valid.
  - apply valid_invariant, space22_valid.
  - vm_compute. split; discriminate.
  - split; [exact Hlist | exact Htensor].
Defined.

(** [tensorWith] of an object with itself: the loop bound is the rank
    already doubled and the loop reads the vector it extends. *)
Example tensorWith_self :
  tensorWith 0 0 (<[0%nat := space2]> ∅)
  = Ok (<[0%nat := {| _rank := 2; _dim := 4; _dimensions := [2; 2; 2] |}]> ∅).
Proof. vm_compute. reflexivity. Qed.

End HilbertSpaceFacts.



(** * Loops and accumulation *)

Module LoopFacts.

(** Reasoning on a counted loop by an invariant on the loop variable. *)
Lemma for_inv {St : Type} (P : nat -> St -> Prop) (body : nat -> St -> result St) :
  forall (count from : nat) (s : St),
    P from s ->
    (forall i s, (from <= i < from + count)%nat -> P i s ->
       exists s', body i s = Ok s' /\ P (S i) s') ->
    exists s', for_ from count body s = Ok s' /\ P (from + count)%nat s'.
Proof.
  induction count as [|count IH]; intros from s Hs Hbody; simpl.
  - exists s. by rewrite Nat.add_0_r.
  - destruct (Hbody from s ltac:(lia) Hs) as (s1 & -> & Hs1). simpl.
    destruct (IH (S from) s1 Hs1) as (s2 & -> & Hs2).
    + intros i s' Hi. apply Hbody. lia.
    + exists s2. split; [done|]. by replace (from + S count)%nat
        with (S from + count)%nat by lia.
Qed.

(** A conditional accumulation is the accumulation over the selected
    elements. *)
Lemma foldl_filter {A B : Type} (P : B -> Prop) `{!forall x, Decision (P x)}
    (f : A -> B -> A) (l : list B) (a : A) :
  foldl (fun acc x => if decide (P x) then f acc x else acc) a l
  = foldl f a (filter P l).
Proof.
  revert a. induction l as [|x l IH]; intros a; [done|].
  rewrite filter_cons. simpl. destruct (decide (P x)); simpl; apply IH.
Qed.

Lemma foldl_ext_in {A B : Type} (f g : A -> B -> A) (l : list B) (a : A) :
  (forall acc x, x ∈ l -> f acc x = g acc x) -> foldl f a l = foldl g a l.
Proof.
  revert a. induction l as [|x l IH]; intros a Hfg; [done|]. simpl.
  rewrite Hfg by left. apply IH. intros acc y Hy. apply Hfg. by right.
Qed.

Lemma StronglySorted_seq j n : StronglySorted lt (seq j n).
Proof.
  revert j. induction n as [|n IH]; intros j; simpl; constructor; [apply IH|].
  apply Forall_seq. intros; lia.
Qed.

Lemma StronglySorted_filter {A} (R : relation A) (P : A -> Prop)
    `{!forall x, Decision (P x)} (l : list A) :
  StronglySorted R l -> StronglySorted R (filter P l).
Proof.
  induction 1 as [|x l Hl IH Hx]; [constructor|].
  rewrite filter_cons. destruct (decide (P x)); [|done].
  constructor; [done|]. rewrite Forall_forall in Hx |- *.
  intros y Hy. apply Hx. by apply list_elem_of_filter in Hy as [_ ?].
Qed.

Lemma increasing_lt (f : nat -> nat) (d : nat) :
  (forall k, (S k < d)%nat -> (f k < f (S k))%nat) ->
  forall j k, (j < k < d)%nat -> (f j < f k)%nat.
Proof.
  intros Hstep j k. induction k as [|k IH]; intros Hjk; [lia|].
  destruct (decide (j = k)) as [->|]; [apply Hstep; lia|].
  etrans; [apply IH; lia | apply Hstep; lia].
Qed.

Lemma StronglySorted_increasing (f : nat -> nat) (d : nat) :
  (forall k, (S k < d)%nat -> (f k < f (S k))%nat) ->
  forall j n, (j + n <= d)%nat -> StronglySorted lt (f <$> seq j n).
Proof.
  intros Hstep j n. revert j. induction n as [|n IH]; intros j Hj; simpl;
    constructor; [apply IH; lia|].
  rewrite Forall_fmap. apply Forall_seq. intros k Hk. simpl.
  apply (increasing_lt f d Hstep). lia.
Qed.

(** The elements below [N] that satisfy [P], in increasing order, are the
    values of an increasing enumeration of them. *)
Lemma filter_seq_increasing (N d : nat) (P : nat -> Prop)
    `{!forall r, Decision (P r)} (f : nat -> nat) :
  (forall k, (k < d)%nat -> (f k < N)%nat /\ P (f k)) ->
  (forall r, (r < N)%nat -> P r -> exists k, (k < d)%nat /\ r = f k) ->
  (forall k, (S k < d)%nat -> (f k < f (S k))%nat) ->
  filter P (seq 0 N) = f <$> seq 0 d.
Proof.
  intros Hin Hout Hstep.
  apply (StronglySorted_unique_strong lt).
  - intros; lia.
  - apply StronglySorted_filter, StronglySorted_seq.
  - by apply (StronglySorted_increasing f d).
  - apply NoDup_Permutation.
    + apply NoDup_filter, NoDup_seq.
    + apply NoDup_fmap_2_strong; [|apply NoDup_seq].
      intros j k Hj Hk Hjk. apply elem_of_seq in Hj, Hk.
      destruct (Nat.lt_trichotomy j k) as [Hlt|[?|Hlt]]; [|done|].
      * pose proof (increasing_lt f d Hstep j k). lia.
      * pose proof (increasing_lt f d Hstep k j). lia.
    + intros r. rewrite list_elem_of_filter, list_elem_of_fmap, elem_of_seq.
      split.
      * intros [HP Hr]. destruct (Hout r ltac:(lia) HP) as (k & Hk & ->).
        exists k. split; [done|]. apply elem_of_seq. lia.
      * intros (k & -> & Hk). apply elem_of_seq in Hk.
        destruct (Hin k ltac:(lia)). split; [done | lia].
Qed.

End LoopFacts.

(** * Inserting and removing one digit *)

Module DigitFacts.
Import HilbertSpace MachineIntFacts HilbertSpaceFacts.

Lemma compose_app ds1 ds2 vs1 vs2 :
  length ds1 = length vs1 ->
  compose (ds1 ++ ds2) (vs1 ++ vs2)
  = compose ds1 vs1 * product ds2 + compose ds2 vs2.
Proof.
  revert vs1. induction ds1 as [|d ds1 IH]; intros [|v vs1] Hlen;
    simplify_eq/=; [lia|].
  change (foldr Z.mul 1 (ds1 ++ ds2)) with (product (ds1 ++ ds2)).
  change (foldr Z.mul 1 ds1) with (product ds1).
  rewrite IH, product_app by done. lia.
Qed.

Lemma insert_digit_delete idx (vs : list Z) k :
  vs !! idx = Some k -> insert_digit idx k (delete idx vs) = vs.
Proof.
  intros Hk. unfold insert_digit. apply lookup_lt_Some in Hk as Hlt.
  rewrite delete_take_drop, take_app_length', drop_app_length'
    by (rewrite length_take; lia).
  by apply take_drop_middle.
Qed.

Lemma delete_insert_digit idx (vs : list Z) k :
  (idx <= length vs)%nat -> delete idx (insert_digit idx k vs) = vs.
Proof.
  intros Hlen. unfold insert_digit.
  rewrite <- (length_take_le vs idx) at 1 by done.
  rewrite delete_middle. apply take_drop.
Qed.

Lemma lookup_insert_digit idx (vs : list Z) k :
  (idx <= length vs)%nat -> insert_digit idx k vs !! idx = Some k.
Proof.
  intros Hlen. unfold insert_digit.
  rewrite <- (length_take_le vs idx) at 1 by done.
  apply list_lookup_middle. done.
Qed.

Lemma length_insert_digit idx (vs : list Z) k :
  length (insert_digit idx k vs) = S (length vs).
Proof.
  unfold insert_digit. rewrite length_app. simpl.
  rewrite length_take, length_drop. lia.
Qed.

Section Digit.
Variables (ds : list Z) (idx : nat) (d : Z).
Hypothesis Hds : Forall is_dim ds.
Hypothesis Hd : ds !! idx = Some d.

Lemma delete_dims : Forall is_dim (delete idx ds).
Proof. by apply Forall_delete. Qed.

Lemma product_delete : product ds = d * product (delete idx ds).
Proof.
  rewrite <- (take_drop_middle ds idx d Hd) at 1.
  rewrite delete_take_drop, !product_app, product_cons. lia.
Qed.

Lemma in_range_insert_digit ws k :
  in_range ws (delete idx ds) -> 0 <= k < d ->
  in_range (insert_digit idx k ws) ds.
Proof.
  intros Hws Hk. apply lookup_lt_Some in Hd as Hlt.
  rewrite delete_take_drop in Hws.
  apply Forall2_app_inv_r in Hws as (w1 & w2 & H1 & H2 & ->).
  apply Forall2_length in H1 as Hl1. rewrite length_take_le in Hl1 by lia.
  unfold insert_digit. rewrite take_app_length', drop_app_length' by done.
  rewrite <- (take_drop_middle ds idx d Hd).
  apply Forall2_app; [done|]. by constructor.
Qed.

Lemma in_range_delete vs : in_range vs ds -> in_range (delete idx vs) (delete idx ds).
Proof. apply Forall2_delete. Qed.

Lemma with_digit_range i k :
  0 <= k < d -> 0 <= with_digit ds idx i k < product ds.
Proof.
  intros Hk. unfold with_digit. apply compose_range; [done|].
  apply in_range_insert_digit; [|done]. apply decompose_range, delete_dims.
Qed.

(** The digits of [with_digit i k]. *)
Lemma decompose_with_digit i k :
  0 <= k < d ->
  decompose ds (with_digit ds idx i k)
  = insert_digit idx k (decompose (delete idx ds) i).
Proof.
  intros Hk. unfold with_digit. apply decompose_compose; [done|].
  apply in_range_insert_digit; [|done]. apply decompose_range, delete_dims.
Qed.

Lemma length_decompose_delete i :
  (idx <= length (decompose (delete idx ds) i))%nat.
Proof.
  pose proof (lookup_lt_Some _ _ _ Hd).
  rewrite length_decompose, length_delete by eauto. lia.
Qed.

(** Removing the digit again gives the reduced index back. *)
Lemma reduce_with_digit i k :
  0 <= k < d -> 0 <= i < product (delete idx ds) ->
  compose (delete idx ds) (delete idx (decompose ds (with_digit ds idx i k))) = i.
Proof.
  intros Hk Hi. rewrite decompose_with_digit by done.
  rewrite delete_insert_digit by apply length_decompose_delete.
  rewrite compose_decompose by apply delete_dims. apply Z.mod_small. lia.
Qed.

Lemma digit_with_digit i k :
  0 <= k < d -> decompose ds (with_digit ds idx i k) !! idx = Some k.
Proof.
  intros Hk. rewrite decompose_with_digit by done.
  apply lookup_insert_digit, length_decompose_delete.
Qed.

(** Every flat index is [with_digit] of its reduced index and its digit. *)
Lemma with_digit_reduce r :
  0 <= r < product ds ->
  exists k, decompose ds r !! idx = Some k /\ 0 <= k < d /\
    r = with_digit ds idx
          (compose (delete idx ds) (delete idx (decompose ds r))) k.
Proof.
  intros Hr. pose proof (decompose_range ds r Hds) as Hrange.
  destruct (Forall2_lookup_r _ _ _ _ _ Hrange Hd) as (k & Hk & Hkd).
  exists k. split; [done|]. split; [done|].
  unfold with_digit.
  rewrite decompose_compose by (apply delete_dims || by apply in_range_delete).
  rewrite insert_digit_delete by done.
  rewrite compose_decompose by done. symmetry. apply Z.mod_small. lia.
Qed.

Lemma reduce_range r :
  0 <= compose (delete idx ds) (delete idx (decompose ds r))
    < product (delete idx ds).
Proof.
  apply compose_range; [apply delete_dims|].
  apply in_range_delete, decompose_range, Hds.
Qed.

(** [with_digit] grows with the digit. *)
Lemma with_digit_increasing i k :
  with_digit ds idx i k < with_digit ds idx i (k + 1).
Proof.
  unfold with_digit, insert_digit.
  set (ws := decompose (delete idx ds) i).
  rewrite <- (take_drop_middle ds idx d Hd).
  apply lookup_lt_Some in Hd as Hlt.
  assert (Hlen : length (take idx ds) = length (take idx ws)).
  { pose proof (length_decompose_delete i). rewrite !length_take_le; [done| |lia].
    done. }
  rewrite !compose_app by done. simpl.
  change (foldr Z.mul 1 (drop (S idx) ds)) with (product (drop (S idx) ds)).
  pose proof (product_pos (drop (S idx) ds) ltac:(by apply Forall_drop)). lia.
Qed.

End Digit.
End DigitFacts.

(** * Matrices as lists of rows *)

Module EigenFacts.
Import Eigen.

Section EigenFacts.
Context {D : Type} `{Scalar D}.

Lemma of_nat_ltb_0 (i : nat) : (Z.of_nat i <? 0) = false.
Proof. apply Z.ltb_ge. lia. Qed.

Lemma at_Some {A} (l : list A) i v : l !! i = Some v -> at_ l i = Ok v.
Proof. unfold at_. by intros ->. Qed.

Lemma put_lt {A} (l : list A) i v :
  (i < length l)%nat -> put l i v = Ok (<[i := v]> l).
Proof. intros Hi. unfold put. by rewrite decide_True. Qed.

Lemma entry_lookup (m : matrix D) i j r x :
  m !! i = Some r -> r !! j = Some x -> entry m i j = x.
Proof. unfold entry. intros -> Hx. simpl. by rewrite Hx. Qed.

Lemma entry_Zero n c i j : entry (Zero n c : matrix D) i j = czero.
Proof.
  unfold entry, Zero.
  destruct (replicate n (replicate c czero) !! i) as [r|] eqn:Hr; [|done].
  apply lookup_replicate in Hr as [-> _]. simpl.
  destruct (replicate c czero !! j) as [x|] eqn:Hx; [|done].
  by apply lookup_replicate in Hx as [-> _].
Qed.

Lemma is_shape_Zero n c : is_shape n c (Zero n c : matrix D).
Proof.
  split; [apply length_replicate|].
  apply Forall_replicate, length_replicate.
Qed.

Lemma coeff_entry (m : matrix D) n c (i j : nat) :
  is_shape n c m -> (i < n)%nat -> (j < c)%nat ->
  coeff m (Z.of_nat i) (Z.of_nat j) = Ok (entry m i j).
Proof.
  intros [Hn Hc] Hi Hj. unfold coeff.
  rewrite !of_nat_ltb_0. simpl. rewrite !Nat2Z.id.
  destruct (lookup_lt_is_Some_2 m i) as [r Hr]; [lia|].
  pose proof (Forall_lookup_1 _ _ _ _ Hc Hr) as Hlen. unfold has_length in Hlen.
  destruct (lookup_lt_is_Some_2 r j) as [x Hx]; [lia|].
  rewrite (at_Some _ _ _ Hr). simpl. rewrite (at_Some _ _ _ Hx).
  by rewrite (entry_lookup _ _ _ _ _ Hr Hx).
Qed.

(** [res(a, b) += x] inside the matrix changes that coefficient only. *)
Lemma add_coeff_spec (m : matrix D) n c (a b : nat) (x : complex D) :
  is_shape n c m -> (a < n)%nat -> (b < c)%nat ->
  exists m',
    add_coeff m (Z.of_nat a) (Z.of_nat b) x = Ok m' /\
    is_shape n c m' /\
    forall i j, entry m' i j
                = if decide (i = a /\ j = b) then cadd (entry m i j) x
                  else entry m i j.
Proof.
  intros [Hn Hc] Ha Hb. unfold add_coeff.
  rewrite !of_nat_ltb_0. simpl. rewrite !Nat2Z.id.
  destruct (lookup_lt_is_Some_2 m a) as [r Hr]; [lia|].
  pose proof (Forall_lookup_1 _ _ _ _ Hc Hr) as Hlen. unfold has_length in Hlen.
  destruct (lookup_lt_is_Some_2 r b) as [y Hy]; [lia|].
  rewrite (at_Some _ _ _ Hr). simpl. rewrite (at_Some _ _ _ Hy). simpl.
  rewrite put_lt by lia. simpl. rewrite put_lt by lia.
  eexists. split; [reflexivity|]. split.
  - split; [by rewrite length_insert|].
    apply Forall_insert; [done|]. unfold has_length. by rewrite length_insert.
  - intros i j. unfold entry.
    destruct (decide (i = a)) as [->|Hia].
    + rewrite list_lookup_insert_eq, Hr by lia. simpl.
      destruct (decide (j = b)) as [->|Hjb].
      * rewrite list_lookup_insert_eq, Hy by lia. simpl.
        by rewrite decide_True.
      * rewrite list_lookup_insert_ne by done.
        rewrite decide_False by (intros [_ ?]; done). done.
    + rewrite list_lookup_insert_ne by done.
      rewrite decide_False by (intros [? _]; done). done.
Qed.

(** In a concatenation of blocks of one length, the element [k] of the
    block [i] is at position [i * n + k]. *)
Lemma lookup_bind_uniform {A B} (f : A -> list B) (n : nat) (l : list A) :
  Forall (fun x => length (f x) = n) l ->
  forall (i k : nat) (x : A),
    l !! i = Some x -> (k < n)%nat ->
    (l ≫= f) !! (i * n + k)%nat = f x !! k.
Proof.
  induction 1 as [|y l Hy _ IH]; intros i k x Hx Hk; [done|].
  rewrite bind_cons. destruct i as [|i]; simpl in Hx.
  - injection Hx as ->. rewrite lookup_app_l by lia. done.
  - rewrite lookup_app_r by (simpl; lia).
    replace (S i * n + k - length (f y))%nat with (i * n + k)%nat
      by (simpl; lia).
    by apply IH.
Qed.

Lemma entry_kronecker (a b : matrix D) (na ca nb cb i j k l : nat) :
  is_shape na ca a -> is_shape nb cb b ->
  (i < na)%nat -> (j < ca)%nat -> (k < nb)%nat -> (l < cb)%nat ->
  entry (kronecker a b) (i * nb + k) (j * cb + l)
  = cmul (entry a i j) (entry b k l).
Proof.
  intros [Hna Hca] [Hnb Hcb] Hi Hj Hk Hl.
  destruct (lookup_lt_is_Some_2 a i) as [ra Hra]; [lia|].
  destruct (lookup_lt_is_Some_2 b k) as [rb Hrb]; [lia|].
  pose proof (Forall_lookup_1 _ _ _ _ Hca Hra) as Hlra.
  pose proof (Forall_lookup_1 _ _ _ _ Hcb Hrb) as Hlrb.
  unfold has_length in Hlra, Hlrb.
  destruct (lookup_lt_is_Some_2 ra j) as [x Hx]; [lia|].
  destruct (lookup_lt_is_Some_2 rb l) as [y Hy]; [lia|].
  rewrite (entry_lookup a i j ra x Hra Hx), (entry_lookup b k l rb y Hrb Hy).
  unfold entry, kronecker.
  rewrite (lookup_bind_uniform _ nb a) with (x := ra);
    [| apply Forall_true; intros; rewrite length_fmap; lia | done | lia].
  rewrite list_lookup_fmap, Hrb. simpl.
  rewrite (lookup_bind_uniform _ cb ra) with (x := x);
    [| apply Forall_true; intros; rewrite length_fmap; lia | done | lia].
  rewrite list_lookup_fmap, Hy. done.
Qed.

(** The rows of the transpose are the columns. *)
Lemma lookup_transpose (m : matrix D) n c j :
  is_shape n c m -> (0 < n)%nat -> (j < c)%nat ->
  transpose m !! j = Some ((fun r => default czero (r !! j)) <$> m).
Proof.
  intros [Hn Hc] Hpos Hj. unfold transpose.
  assert (Hcols : cols m = c).
  { destruct m as [|r m]; simpl in *; [lia|].
    by apply Forall_cons in Hc as [? _]. }
  rewrite list_lookup_fmap, Hcols, lookup_seq_lt by done. done.
Qed.

Lemma length_transpose (m : matrix D) n c :
  is_shape n c m -> (0 < n)%nat -> length (transpose m) = c.
Proof.
  intros [Hn Hc] Hpos. unfold transpose. rewrite length_fmap, length_seq.
  destruct m as [|r m]; simpl in *; [lia|].
  by apply Forall_cons in Hc as [? _].
Qed.

(** A coefficient of the product is the sum over the inner index. *)
Lemma entry_mul (a b : matrix D) n i j :
  is_shape n n a -> is_shape n n b -> (i < n)%nat -> (j < n)%nat ->
  entry (mul a b) i j
  = sum ((fun k => cmul (entry a i k) (entry b k j)) <$> seq 0 n).
Proof.
  intros Ha Hb Hi Hj. pose proof Ha as [Hna Hca]. pose proof Hb as [Hnb Hcb].
  destruct (lookup_lt_is_Some_2 a i) as [r Hr]; [lia|].
  pose proof (Forall_lookup_1 _ _ _ _ Hca Hr) as Hlr. unfold has_length in Hlr.
  unfold entry at 1, mul. rewrite list_lookup_fmap, Hr. simpl.
  rewrite list_lookup_fmap, (lookup_transpose b n n j Hb) by lia. simpl.
  f_equal. apply list_eq. intros k.
  rewrite lookup_zip_with, !list_lookup_fmap.
  destruct (decide (k < n)%nat) as [Hk|Hk].
  - rewrite lookup_seq_lt by done. simpl.
    destruct (lookup_lt_is_Some_2 r k) as [x Hx]; [lia|].
    destruct (lookup_lt_is_Some_2 b k) as [rb Hrb]; [lia|].
    rewrite Hx, Hrb. simpl. unfold entry. rewrite Hr, Hrb. simpl.
    by rewrite Hx.
  - rewrite lookup_seq_ge by lia. rewrite (lookup_ge_None_2 r) by lia. done.
Qed.

Lemma is_shape_mul (a b : matrix D) n :
  is_shape n n a -> is_shape n n b -> is_shape n n (mul a b).
Proof.
  intros [Hna Hca] Hb. destruct (decide (n = 0)%nat) as [->|Hn].
  - destruct a; [|done]. split; [done | constructor].
  - split; unfold mul; [by rewrite length_fmap|].
    apply Forall_fmap, Forall_true. intros r. unfold has_length. simpl.
    rewrite length_fmap. apply (length_transpose b n n Hb). lia.
Qed.

(** The trace is the sum of the diagonal coefficients. *)
Lemma trace_entries (m : matrix D) n :
  is_shape n n m -> trace m = sum ((fun i => entry m i i) <$> seq 0 n).
Proof.
  intros [Hn Hc]. unfold trace, diagonal. f_equal. apply list_eq. intros i.
  rewrite list_lookup_imap, list_lookup_fmap.
  destruct (decide (i < n)%nat) as [Hi|Hi].
  - destruct (lookup_lt_is_Some_2 m i) as [r Hr]; [lia|].
    rewrite lookup_seq_lt, Hr by done. simpl. unfold entry. by rewrite Hr.
  - rewrite lookup_seq_ge, (lookup_ge_None_2 m) by lia. done.
Qed.

(** The trace that [isPure] computes is the trace of the square. *)
Lemma trace_mul_square (m : matrix D) n :
  is_shape n n m -> trace (mul m m) = trace_of_square n m.
Proof.
  intros Hm. rewrite (trace_entries _ n) by by apply is_shape_mul.
  unfold trace_of_square. f_equal. apply list_fmap_ext. intros k i Hi.
  apply lookup_seq in Hi as [-> Hi]. simpl. by apply entry_mul.
Qed.

End EigenFacts.
End EigenFacts.

(** * The partial trace *)

Module PartialTraceFacts.
Import HilbertSpace Eigen QuantumState.
Import MachineIntFacts HilbertSpaceFacts LoopFacts DigitFacts EigenFacts.

(** Lines 79-84 rebuild the full multi-index. *)
Lemma rightIndex_loop_spec (idx : nat) (L R : list Z) (k : Z) :
  L !! idx = Some k -> length L = S (length R) ->
  for_ 0 (length L) (rightIndex_step (Z.of_nat idx) L R) L
  = Ok (insert_digit idx k R).
Proof.
  intros Hk Hlen. apply lookup_lt_Some in Hk as Hidx.
  set (target := insert_digit idx k R).
  destruct (for_inv
    (fun i l => length l = length L /\
                forall j, (j < i)%nat -> l !! j = target !! j)
    (rightIndex_step (Z.of_nat idx) L R) (length L) 0%nat L) as (l & -> & Hl & Heq).
  - split; [done|]. intros; lia.
  - intros i l Hi [Hll Hpre]. unfold rightIndex_step.
    assert (Hstep : forall v, target !! i = Some v ->
              exists s', put l i v = Ok s' /\
                (length s' = length L /\
                 forall j, (j < S i)%nat -> s' !! j = target !! j)).
    { intros v Hv. rewrite put_lt by lia. eexists. split; [done|].
      split; [by rewrite length_insert|]. intros j Hj.
      destruct (decide (j = i)) as [->|].
      - rewrite list_lookup_insert_eq by lia. done.
      - rewrite list_lookup_insert_ne by done. apply Hpre. lia. }
    unfold target, insert_digit in Hstep.
    destruct (Z.ltb_spec (Z.of_nat i) (Z.of_nat idx)).
    + destruct (lookup_lt_is_Some_2 R i) as [v Hv]; [lia|].
      rewrite (at_Some _ _ _ Hv). simpl. apply Hstep.
      rewrite lookup_app_l by (rewrite length_take; lia).
      rewrite lookup_take_lt by lia. done.
    + destruct (Z.ltb_spec (Z.of_nat idx) (Z.of_nat i)).
      * destruct (lookup_lt_is_Some_2 R (i - 1)) as [v Hv]; [lia|].
        rewrite (at_Some _ _ _ Hv). simpl. apply Hstep.
        rewrite lookup_app_r by (rewrite length_take; lia).
        rewrite length_take_le by lia.
        replace (i - idx)%nat with (S (i - 1 - idx)) by lia. simpl.
        rewrite lookup_drop. rewrite <- Hv. f_equal. lia.
      * assert (i = idx) as -> by lia. rewrite Nat2Z.id.
        rewrite (at_Some _ _ _ Hk). simpl. apply Hstep.
        rewrite lookup_app_r by (rewrite length_take; lia).
        rewrite length_take_le by lia. by rewrite Nat.sub_diag.
  - f_equal. apply list_eq_same_length with (length L); [|done|].
    + unfold target. rewrite length_insert_digit. lia.
    + intros j x y Hj Hx Hy. rewrite Heq in Hx by lia. congruence.
Qed.

(** Lines 87-92 remove the traced coordinate. *)
Lemma leftRed_loop_spec (idx : nat) (L R : list Z) :
  (idx < length L)%nat -> length L = S (length R) ->
  for_ 0 (length L) (leftRed_step (Z.of_nat idx) L) R = Ok (delete idx L).
Proof.
  intros Hidx Hlen.
  destruct (for_inv
    (fun i l => length l = length R /\
                forall j, ((j < idx)%nat -> (j < i)%nat -> l !! j = L !! j) /\
                          ((idx <= j)%nat -> (S j < i)%nat -> l !! j = L !! S j))
    (leftRed_step (Z.of_nat idx) L) (length L) 0%nat R) as (l & -> & Hl & Heq).
  - split; [done|]. intros j. split; intros; lia.
  - intros i l Hi [Hll Hpre]. unfold leftRed_step.
    destruct (lookup_lt_is_Some_2 L i) as [v Hv]; [lia|].
    destruct (Z.ltb_spec (Z.of_nat i) (Z.of_nat idx)).
    + rewrite (at_Some _ _ _ Hv). simpl. rewrite put_lt by lia.
      eexists. split; [done|]. split; [by rewrite length_insert|].
      intros j. split; intros Hj1 Hj2.
      * destruct (decide (j = i)) as [->|].
        -- rewrite list_lookup_insert_eq by lia. done.
        -- rewrite list_lookup_insert_ne by done. apply Hpre; lia.
      * lia.
    + destruct (Z.ltb_spec (Z.of_nat idx) (Z.of_nat i)).
      * rewrite (at_Some _ _ _ Hv). simpl. rewrite put_lt by lia.
        eexists. split; [done|]. split; [by rewrite length_insert|].
        intros j. split; intros Hj1 Hj2.
        -- rewrite list_lookup_insert_ne by lia. apply Hpre; lia.
        -- destruct (decide (j = (i - 1)%nat)) as [->|].
           ++ rewrite list_lookup_insert_eq by lia.
              replace (S (i - 1)) with i by lia. done.
           ++ rewrite list_lookup_insert_ne by done. apply Hpre; lia.
      * assert (i = idx) as -> by lia.
        eexists. split; [done|]. split; [done|].
        intros j. split; intros Hj1 Hj2; apply Hpre; lia.
  - f_equal. apply list_eq_same_length with (length R); [|done|].
    + rewrite length_delete by (apply lookup_lt_is_Some_2; lia). lia.
    + intros j x y Hj Hx Hy. destruct (Heq j) as [H1 H2].
      destruct (decide (j < idx)%nat).
      * rewrite list_lookup_delete_lt in Hy by done. rewrite H1 in Hx by lia.
        congruence.
      * rewrite list_lookup_delete_ge in Hy by lia. rewrite H2 in Hx by lia.
        congruence.
Qed.

Lemma bind_Ok {A B} (x : A) (f : A -> result B) : Ok x ≫= f = f x.
Proof. reflexivity. Qed.

Section PartialTrace.
Context {D : Type} `{Scalar D} `{!SelfAdjointEigenSolver D}.
Variables (this : t D) (idx : nat) (d : Z).
Hypothesis Hvalid : QuantumState.valid this.
Hypothesis Hd : dimensions (_space this) !! idx = Some d.
Hypothesis Hrank : (2 <= length (dimensions (_space this)))%nat.

Local Abbreviation ds := (_dimensions (_space this)).
Local Abbreviation ds' := (delete idx (_dimensions (_space this))).
Local Abbreviation N := (Z.to_nat (product ds)).
Local Abbreviation M := (Z.to_nat (product ds')).
Local Abbreviation reduced_space := (HilbertSpace.reduced_space ds idx).
Local Abbreviation redn := (reduced_index ds idx).
Local Abbreviation dig := (digit ds idx).
Local Abbreviation insn := (full_index ds idx).

Lemma dims_positive : Forall is_dim ds.
Proof using Hvalid Hd. clear Hrank. by destruct Hvalid as [(_ & ? & _) _]. Qed.

Lemma product_is_int : product ds <= INT_MAX.
Proof using Hvalid Hd. clear Hrank. by destruct Hvalid as [(_ & _ & _ & ?) _]. Qed.

Lemma factor_lookup : ds !! idx = Some d.
Proof using Hvalid Hd. clear Hrank. exact Hd. Qed.

Lemma d_range : 1 <= d <= INT_MAX.
Proof using Hvalid Hd. clear Hrank.
  pose proof (Forall_lookup_1 _ _ _ _ dims_positive factor_lookup) as Hdim.
  pose proof (is_dim_le_product _ _ _ dims_positive factor_lookup). pose proof product_is_int.
  unfold is_dim in Hdim. lia.
Qed.

Lemma product_split : product ds = d * product ds'.
Proof using Hvalid Hd. clear Hrank. apply product_delete, factor_lookup. Qed.

Lemma product_reduced : 1 <= product ds' <= INT_MAX.
Proof using Hvalid Hd. clear Hrank.
  pose proof (product_pos _ (delete_dims ds idx dims_positive)).
  pose proof product_split. pose proof d_range. pose proof product_is_int. nia.
Qed.

Lemma length_reduced : S (length ds') = length ds.
Proof using Hvalid Hd. clear Hrank.
  pose proof (lookup_lt_Some _ _ _ factor_lookup).
  rewrite length_delete by eauto. lia.
Qed.

Lemma reduced_space_valid : HilbertSpace.valid reduced_space.
Proof using Hvalid Hd. clear Hrank.
  pose proof product_reduced.
  repeat split; simpl; [apply delete_dims, dims_positive | lia].
Qed.

Lemma construct_reduced : construct_dimensions ds' = Ok reduced_space.
Proof using Hvalid Hd. clear Hrank.
  unfold construct_dimensions.
  rewrite construct_loop_spec
    by (apply delete_dims, dims_positive || (unfold is_int, INT_MAX; lia)).
  simpl. rewrite Z.mul_1_l, to_int_id; [done|].
  pose proof product_reduced. unfold is_int. lia.
Qed.

Lemma redn_lt r : (redn r < M)%nat.
Proof using Hvalid Hd. clear Hrank.
  unfold reduced_index. pose proof (reduce_range ds idx dims_positive (Z.of_nat r)). lia.
Qed.

Lemma insn_lt c k : 0 <= k < d -> (insn c k < N)%nat.
Proof using Hvalid Hd. clear Hrank.
  intros Hk. unfold full_index.
  pose proof (with_digit_range ds idx d dims_positive factor_lookup (Z.of_nat c) k Hk). lia.
Qed.

Lemma dig_spec r :
  (r < N)%nat ->
  decompose ds (Z.of_nat r) !! idx = Some (dig r) /\ 0 <= dig r < d /\
  r = insn (redn r) (dig r).
Proof using Hvalid Hd. clear Hrank.
  intros Hr.
  destruct (with_digit_reduce ds idx d dims_positive factor_lookup (Z.of_nat r)) as (k & Hk & Hkd & Heq);
    [lia|].
  unfold digit, full_index, reduced_index. rewrite Hk. simpl. split; [done|]. split; [done|].
  pose proof (reduce_range ds idx dims_positive (Z.of_nat r)).
  rewrite Z2Nat.id by lia. rewrite <- Heq. lia.
Qed.

(** One pass of lines 72-98 adds the coefficient at ([row], [col] with the
    digit of [row]) to the coefficient at (reduced [row], [col]). *)
Lemma partialTrace_body_spec (r c : nat) (res : matrix D) :
  (r < N)%nat -> (c < M)%nat ->
  partialTrace_body this (Z.of_nat idx) reduced_space r c res
  = add_coeff res (Z.of_nat (redn r)) (Z.of_nat c)
      (entry (_density this) r (insn c (dig r))).
Proof.
  intros Hr Hc. pose proof product_is_int. pose proof product_reduced as HM.
  destruct Hvalid as [Hsp Hshape].
  pose proof (valid_wf _ Hsp) as Hwf.
  pose proof (valid_wf _ reduced_space_valid) as Hwf'.
  destruct (dig_spec r Hr) as (Hk & Hkd & Hrr).
  pose proof (decompose_range ds (Z.of_nat r) dims_positive) as HL.
  pose proof (decompose_range ds' (Z.of_nat c) (delete_dims ds idx dims_positive)) as HR.
  pose proof length_reduced as Hlen.
  unfold partialTrace_body.
  rewrite (getVector_spec (_space this)), bind_Ok by (done || lia).
  rewrite (getVector_spec reduced_space), bind_Ok by (done || lia).
  change (_dimensions reduced_space) with ds'.
  rewrite (rightIndex_loop_spec idx _ _ (dig r)), bind_Ok;
    [| done | by rewrite !length_decompose].
  rewrite length_insert_digit, length_decompose, Hlen.
  rewrite <- (length_decompose ds (Z.of_nat r)) at 1.
  rewrite leftRed_loop_spec, bind_Ok;
    [| rewrite length_decompose; by eapply lookup_lt_Some
     | by rewrite !length_decompose].
  assert (Hidx : (idx < length ds)%nat) by (by eapply lookup_lt_Some).
  assert (Hrank' : (2 <= length ds)%nat) by exact Hrank.
  assert (HlenD : length (delete idx (decompose ds (Z.of_nat r))) = length ds').
  { rewrite length_delete, length_decompose;
      [lia | apply lookup_lt_is_Some_2; rewrite length_decompose; lia]. }
  unfold matrixElement.
  rewrite (getIndex_spec (_space this) (decompose ds (Z.of_nat r))), bind_Ok;
    [| by destruct Hsp | by rewrite length_decompose
     | rewrite length_decompose; lia].
  rewrite (getIndex_spec (_space this) (insert_digit _ _ _)), bind_Ok;
    [| by destruct Hsp | rewrite length_insert_digit, length_decompose; lia
     | rewrite length_insert_digit; lia].
  rewrite compose_decompose, Z.mod_small by (apply dims_positive || lia).
  rewrite (to_int_id (Z.of_nat r)) by (unfold is_int; lia).
  change (compose ds (insert_digit idx (dig r) (decompose ds' (Z.of_nat c))))
    with (with_digit ds idx (Z.of_nat c) (dig r)).
  pose proof (with_digit_range ds idx d dims_positive factor_lookup (Z.of_nat c) (dig r) Hkd) as Hw.
  rewrite (to_int_id (with_digit _ _ _ _)) by (unfold is_int; lia).
  replace (with_digit ds idx (Z.of_nat c) (dig r))
    with (Z.of_nat (insn c (dig r))) by (unfold full_index; lia).
  destruct Hsp as (Hrk & _ & Hdim & _). unfold totalDimension in Hshape.
  rewrite Hdim in Hshape.
  rewrite (coeff_entry _ _ _ _ _ Hshape), bind_Ok by (done || by apply insn_lt).
  rewrite (getIndex_spec reduced_space (delete idx _)), bind_Ok;
    [| done | exact HlenD | lia].
  rewrite (getIndex_spec reduced_space (decompose ds' _)), bind_Ok;
    [| done | by rewrite length_decompose | rewrite length_decompose; lia].
  simpl.
  rewrite compose_decompose, Z.mod_small by (apply delete_dims, dims_positive || lia).
  pose proof (reduce_range ds idx dims_positive (Z.of_nat r)) as Hred.
  rewrite !to_int_id by (unfold is_int; lia).
  unfold reduced_index. by rewrite Z2Nat.id by lia.
Qed.

(** The inner loop adds, for every column, one coefficient to the row of
    the reduced index. *)
Lemma partialTrace_cols_spec (r : nat) (res : matrix D) :
  (r < N)%nat -> is_shape M M res ->
  exists res',
    for_ 0 M (partialTrace_body this (Z.of_nat idx) reduced_space r) res = Ok res' /\
    is_shape M M res' /\
    forall i j, (j < M)%nat ->
      entry res' i j
      = if decide (i = redn r)
        then cadd (entry res i j) (entry (_density this) r (insn j (dig r)))
        else entry res i j.
Proof.
  intros Hr Hres.
  destruct (for_inv
    (fun c res' =>
       is_shape M M res' /\
       forall i j, entry res' i j
         = if decide (i = redn r /\ (j < c)%nat)
           then cadd (entry res i j) (entry (_density this) r (insn j (dig r)))
           else entry res i j)
    (partialTrace_body this (Z.of_nat idx) reduced_space r) M 0%nat res)
    as (res' & Hrun & Hshape & Hent).
  - split; [done|]. intros i j. rewrite decide_False; [done | lia].
  - intros c res1 Hc [Hs1 He1].
    rewrite partialTrace_body_spec by (done || lia).
    destruct (add_coeff_spec res1 M M (redn r) c
                (entry (_density this) r (insn c (dig r))) Hs1 (redn_lt r)
                ltac:(lia)) as (res2 & -> & Hs2 & He2).
    exists res2. split; [done|]. split; [done|].
    intros i j. rewrite He2, He1.
    destruct (decide (i = redn r /\ j = c)) as [[-> ->]|Hne].
    + rewrite decide_False by lia. rewrite decide_True by lia. done.
    + destruct (decide (i = redn r /\ (j < c)%nat)) as [[-> ?]|Hn1].
      * rewrite decide_True by lia. done.
      * rewrite decide_False; [done|]. intros [-> ?]. apply Hne.
        split; [done|]. destruct (decide (j = c)); [done|].
        exfalso. apply Hn1. split; [done | lia].
  - exists res'. split; [exact Hrun|]. split; [done|].
    intros i j Hj. rewrite Hent.
    destruct (decide (i = redn r)) as [->|].
    + rewrite decide_True; [done | split; [done | lia]].
    + rewrite decide_False; [done | by intros [? _]].
Qed.

(** The bound of the inner loop. *)
Lemma partialTrace_bound :
  dimension (_space this) (Z.of_nat idx) = Ok d /\
  Z.to_nat (Z.quot (totalDimension (_space this)) d) = M.
Proof using Hvalid Hd. clear Hrank.
  destruct Hvalid as [(Hrk & _ & Hdim & _) _]. pose proof d_range as Hdr.
  pose proof (lookup_lt_Some _ _ _ factor_lookup) as Hidx. split.
  - unfold dimension. rewrite of_nat_ltb_0.
    rewrite (proj2 (Z.leb_gt (_rank (_space this)) (Z.of_nat idx))) by lia.
    rewrite Nat2Z.id, factor_lookup, to_int_id; [done|].
    unfold is_int. lia.
  - unfold totalDimension. rewrite Hdim, product_split.
    pose proof product_reduced.
    rewrite Z.quot_div_nonneg by nia.
    rewrite Z.mul_comm, Z.div_mul by lia. done.
Qed.

(** The accumulation of the two loops, coefficient by coefficient. *)
Lemma partialTrace_rows_spec :
  exists res,
    for_ 0 N
      (fun row res =>
         d ← dimension (_space this) (Z.of_nat idx);
         bound ← (if d =? 0 then Throw Undefined
                  else Ok (Z.quot (totalDimension (_space this)) d));
         for_ 0 (Z.to_nat bound)
           (partialTrace_body this (Z.of_nat idx) reduced_space row) res)
      (Zero M M) = Ok res /\
    is_shape M M res /\
    forall i j, (i < M)%nat -> (j < M)%nat ->
      entry res i j
      = foldl (fun acc r =>
                 if decide (redn r = i)
                 then cadd acc (entry (_density this) r (insn j (dig r)))
                 else acc)
              czero (seq 0 N).
Proof.
  destruct partialTrace_bound as [Hdim Hbound]. pose proof d_range as Hdr.
  destruct (for_inv
    (fun n res =>
       is_shape M M res /\
       forall i j, (i < M)%nat -> (j < M)%nat ->
         entry res i j
         = foldl (fun acc r =>
                    if decide (redn r = i)
                    then cadd acc (entry (_density this) r (insn j (dig r)))
                    else acc)
                 czero (seq 0 n))
    (fun row res =>
         d ← dimension (_space this) (Z.of_nat idx);
         bound ← (if d =? 0 then Throw Undefined
                  else Ok (Z.quot (totalDimension (_space this)) d));
         for_ 0 (Z.to_nat bound)
           (partialTrace_body this (Z.of_nat idx) reduced_space row) res)
    N 0%nat (Zero M M)) as (res & Hrun & Hshape & Hent).
  - split; [apply is_shape_Zero|]. intros i j _ _. apply entry_Zero.
  - intros r res1 Hr [Hs1 He1].
    rewrite Hdim, bind_Ok. rewrite (proj2 (Z.eqb_neq d 0)) by lia.
    rewrite bind_Ok, Hbound.
    destruct (partialTrace_cols_spec r res1 ltac:(lia) Hs1)
      as (res2 & -> & Hs2 & He2).
    exists res2. split; [done|]. split; [done|].
    intros i j Hi Hj. rewrite seq_S, foldl_app. simpl.
    rewrite He2, He1 by done.
    destruct (decide (i = redn r)) as [->|Hne].
    + by rewrite decide_True.
    + by rewrite decide_False.
  - exists res. done.
Qed.

(** The rows with a given reduced index, in the order the outer loop
    meets them, are that index with the digits 0, 1, ... put in. *)
Lemma rows_of_reduced_index (i : nat) :
  (i < M)%nat ->
  filter (fun r => redn r = i) (seq 0 N)
  = (fun k : nat => insn i (Z.of_nat k)) <$> seq 0 (Z.to_nat d).
Proof.
  intros Hi. pose proof d_range as Hdr. pose proof product_reduced as HM.
  apply filter_seq_increasing.
  - intros k Hk. split; [apply insn_lt; lia|].
    unfold reduced_index, full_index.
    pose proof (with_digit_range ds idx d dims_positive factor_lookup (Z.of_nat i) (Z.of_nat k)
                  ltac:(lia)).
    rewrite Z2Nat.id by lia.
    rewrite (reduce_with_digit ds idx d dims_positive factor_lookup) by lia. lia.
  - intros r Hr Hred. destruct (dig_spec r Hr) as (_ & Hk & Heq).
    exists (Z.to_nat (dig r)). split; [lia|].
    rewrite Z2Nat.id by lia. by rewrite <- Hred.
  - intros k Hk. unfold full_index.
    pose proof (with_digit_increasing ds idx d dims_positive factor_lookup (Z.of_nat i) (Z.of_nat k)).
    pose proof (with_digit_range ds idx d dims_positive factor_lookup (Z.of_nat i) (Z.of_nat k)
                  ltac:(lia)).
    replace (Z.of_nat (S k)) with (Z.of_nat k + 1) by lia. lia.
Qed.

Lemma digit_full_index (i k : nat) :
  (k < Z.to_nat d)%nat -> dig (insn i (Z.of_nat k)) = Z.of_nat k.
Proof.
  intros Hk. unfold digit, full_index.
  pose proof (with_digit_range ds idx d dims_positive factor_lookup (Z.of_nat i) (Z.of_nat k)
                ltac:(lia)).
  rewrite Z2Nat.id by lia.
  by rewrite (digit_with_digit ds idx d dims_positive factor_lookup) by lia.
Qed.

(** The accumulation is the sum over the digits of the traced factor. *)
Lemma accumulation_is_sum (i j : nat) :
  (i < M)%nat ->
  foldl (fun acc r =>
           if decide (redn r = i)
           then cadd acc (entry (_density this) r (insn j (dig r)))
           else acc)
        czero (seq 0 N)
  = sum ((fun k : nat => entry (_density this) (insn i (Z.of_nat k))
                                               (insn j (Z.of_nat k)))
           <$> seq 0 (Z.to_nat d)).
Proof.
  intros Hi.
  rewrite (foldl_filter (fun r => redn r = i)
             (fun acc r => cadd acc (entry (_density this) r (insn j (dig r))))).
  rewrite rows_of_reduced_index by done.
  unfold sum. rewrite !foldl_fmap. apply foldl_ext_in.
  intros acc k Hk. apply elem_of_seq in Hk.
  rewrite digit_full_index by lia. done.
Qed.

(** Lines 58-99 on a valid state of rank at least 2. *)
Lemma partialTrace_matrix_spec :
  exists res,
    partialTrace_matrix this (Z.of_nat idx) = Ok (res, reduced_space) /\
    is_shape M M res /\
    forall i j, (i < M)%nat -> (j < M)%nat ->
      entry res i j
      = sum ((fun k : nat => entry (_density this) (insn i (Z.of_nat k))
                                                   (insn j (Z.of_nat k)))
               <$> seq 0 (Z.to_nat d)).
Proof.
  destruct partialTrace_rows_spec as (res & Hrun & Hshape & Hent).
  exists res. split; [|split; [done|]].
  - unfold partialTrace_matrix. rewrite Nat2Z.id.
    pose proof (lookup_lt_Some _ _ _ factor_lookup).
    rewrite decide_True, bind_Ok by done.
    unfold dimensions. rewrite construct_reduced, bind_Ok.
    pose proof product_reduced.
    change (totalDimension reduced_space) with (product ds').
    rewrite (proj2 (Z.ltb_ge (product ds') 0)), bind_Ok by lia.
    destruct Hvalid as [(_ & _ & Hdim & _) _]. unfold totalDimension at 1.
    rewrite Hdim, Hrun. done.
  - intros i j Hi Hj. rewrite Hent by done. by apply accumulation_is_sum.
Qed.

End PartialTrace.
Section Construct.
Context {D : Type} `{Scalar D} `{!SelfAdjointEigenSolver D}.

(** A matrix of more than one column that the constructor accepts becomes
    the density matrix as it is, over the given space. *)
Lemma construct_keeps_matrix (matr : matrix D) (sp : HilbertSpace.t) (st : t D) :
  construct matr sp = Ok st -> cols matr <> 1%nat ->
  _density st = matr /\ _space st = sp.
Proof.
  unfold construct, _checkMatrixIsSquare, _calculateEigenValuesAndVectors,
    _checkMatrixIsDensityMatrix, _checkSpaceDimension, set_density, set_space,
    set_eigen, get, throw, mbind, method_bind, mret, method_ret.
  intros Hc Hcols. rewrite decide_False in Hc by done. simpl in Hc.
  repeat (case_match; simplify_eq/=); done.
Qed.

(** A single column becomes the product of the normalized column with
    its transpose. *)
Lemma construct_of_column (matr : matrix D) (sp : HilbertSpace.t) (st : t D) :
  construct matr sp = Ok st -> cols matr = 1%nat ->
  _density st = mul (normalize matr) (transpose (normalize matr)).
Proof.
  unfold construct, _checkMatrixIsSquare, _calculateEigenValuesAndVectors,
    _checkMatrixIsDensityMatrix, _checkSpaceDimension, set_density, set_space,
    set_eigen, get, throw, mbind, method_bind, mret, method_ret.
  intros Hc Hcols. rewrite decide_True in Hc by done. simpl in Hc.
  repeat (case_match; simplify_eq/=); done.
Qed.

End Construct.

(** In a space of two factors, the flat index of (i, k). *)
Lemma full_index_two (na nb i k : nat) :
  (i < na)%nat -> (k < nb)%nat ->
  full_index [Z.of_nat na; Z.of_nat nb] 1 i (Z.of_nat k) = (i * nb + k)%nat.
Proof.
  intros Hi Hk. unfold full_index, with_digit. simpl.
  rewrite Z.div_1_r, Z.mod_small by lia. lia.
Qed.

(** *** The claims on partialTrace *)

(** C1, amended.  On a valid state over a space of rank at least 2 and an
    index in range, [partialTrace] hands to the constructor the space with
    the factor [index] removed, the others in their order, and the square
    matrix whose coefficient (i, j) is the sum, over the digits k of the
    traced factor from 0 upwards, of the density coefficients at ((i,k),
    (j,k)), where (i,k) is the flat index of the multi-index of i with k
    inserted at position [index].  When the constructor accepts that matrix
    and the reduced space has total dimension other than 1, the state
    returned has that matrix as density matrix and that space as space.
    For a state of two factors whose density matrix is the Kronecker product
    of [a] and [b], traced over the second, the coefficient (i, j) is the sum
    over k of [a(i, j) * b(k, k)]. *)
Theorem partialTrace_sums_over_traced_factor
    {D : Type} `{Scalar D} `{!SelfAdjointEigenSolver D}
    (this : t D) (index : Z) :
  valid this -> 0 <= index < rank (space this) -> 2 <= rank (space this) ->
  let ds := dimensions (space this) in
  let idx := Z.to_nat index in
  let M := Z.to_nat (totalDimension (reduced_space ds idx)) in
  exists (res : matrix D) (d : Z),
    dimension (space this) index = Ok d /\
    dimensions (reduced_space ds idx) = delete idx ds /\
    HilbertSpace.valid (reduced_space ds idx) /\
    partialTrace index this = (construct res (reduced_space ds idx), this) /\
    is_shape M M res /\
    (forall i j : nat, (i < M)%nat -> (j < M)%nat ->
       entry res i j
       = sum ((fun k : nat =>
                 entry (densityMatrix this)
                       (full_index ds idx i (Z.of_nat k))
                       (full_index ds idx j (Z.of_nat k)))
                <$> seq 0 (Z.to_nat d))) /\
    (forall st : t D,
       construct res (reduced_space ds idx) = Ok st ->
       totalDimension (reduced_space ds idx) <> 1 ->
       densityMatrix st = res /\ space st = reduced_space ds idx) /\
    (forall (a b : matrix D) (na nb : nat),
       ds = [Z.of_nat na; Z.of_nat nb] -> index = 1 ->
       is_shape na na a -> is_shape nb nb b ->
       densityMatrix this = kronecker a b ->
       forall i j : nat, (i < na)%nat -> (j < na)%nat ->
         entry res i j
         = sum ((fun k : nat => cmul (entry a i j) (entry b k k))
                  <$> seq 0 nb)).
Proof.
  unfold space, densityMatrix, rank, dimensions. intros Hvalid Hindex Hrank.
  pose proof Hvalid as [(Hrk & _) _].
  destruct (lookup_lt_is_Some_2 (_dimensions (_space this)) (Z.to_nat index))
    as [d Hd]; [lia|].
  assert (Hrank' : (2 <= length (HilbertSpace.dimensions (_space this)))%nat)
    by (unfold HilbertSpace.dimensions; lia).
  destruct (partialTrace_matrix_spec this (Z.to_nat index) d Hvalid Hd Hrank')
    as (res & Hrun & Hshape & Hent).
  destruct (partialTrace_bound this (Z.to_nat index) d Hvalid Hd) as [Hdim _].
  rewrite Z2Nat.id in Hrun by lia. rewrite Z2Nat.id in Hdim by lia.
  exists res, d. split; [done|]. split; [done|].
  split; [by apply (reduced_space_valid this (Z.to_nat index) d)|].
  split; [|split; [done|split; [done|split]]].
  - unfold partialTrace. rewrite (proj2 (Z.ltb_ge index 0)) by lia.
    rewrite (proj2 (Z.leb_gt (HilbertSpace.rank (_space this)) index))
      by (unfold HilbertSpace.rank; lia).
    by rewrite Hrun.
  - intros st Hst Hne. apply construct_keeps_matrix; [done|].
    destruct Hshape as [Hrows Hcols].
    pose proof (product_reduced this (Z.to_nat index) d Hvalid Hd).
    unfold totalDimension in *. simpl in *.
    destruct res as [|row res]; simpl in *; [lia|].
    apply Forall_cons in Hcols as [Hrow _]. unfold has_length in Hrow. lia.
  - intros a b na nb Hds Hone Ha Hb Hrho i j Hi Hj. subst index.
    change (Z.to_nat 1) with 1%nat in *. rewrite Hds in Hd, Hent.
    simpl in Hd. injection Hd as <-. rewrite Nat2Z.id in Hent.
    rewrite Hent by (simpl; lia).
    f_equal. apply list_fmap_ext. intros n k Hk.
    apply lookup_seq in Hk as [-> Hk]. simpl.
    rewrite !full_index_two, Hrho by done.
    by apply (entry_kronecker a b na na nb nb).
Qed.

End PartialTraceFacts.


(** * Construction, mutation and partial trace of states *)

Module QuantumStateFacts.
Import HilbertSpace Eigen Exact QuantumState Examples.
Import PartialTraceFacts.

Section Generic.
Context {D : Type} `{Scalar D} `{!SelfAdjointEigenSolver D}.

(** [setMatrix] stores the eigenvalues and eigenvectors of the candidate
    before it checks that the candidate is a density matrix. *)
Lemma setMatrix_commits_eigen_first (matr : matrix D) (this : t D) vals vecs :
  cols matr = rows matr ->
  totalDimension (_space this) = Z.of_nat (rows matr) ->
  _checkMatrixIsSelfAdjoined matr = true ->
  compute matr = Some (vals, vecs) ->
  existsb (fun v => d_ltb d_epsilon (d_abs v) && d_ltb v d_zero) vals
  || d_ltb d_epsilon (cabs (csub (trace matr) (Complex d_one d_zero))) = true ->
  setMatrix matr this
  = (Throw InvalidArgument, mk (_density this) (_space this) vals vecs).
Proof.
  intros Hsq Hdim Hadj Hsolve Hbad.
  unfold setMatrix, _checkMatrixIsSquare, _checkSpaceDimension,
    _calculateEigenValuesAndVectors, _checkMatrixIsDensityMatrix,
    set_density, set_eigen, get, throw, mbind, method_bind, mret, method_ret.
  rewrite decide_True by done. rewrite decide_True by done.
  rewrite Hadj, Hsolve. simpl.
  apply orb_true_iff in Hbad as [->| Hbad]; [done|].
  rewrite Hbad. by destruct (existsb _ _).
Qed.

(** [partialTrace] is [const]. *)
Lemma partialTrace_const (this : t D) (index : Z) :
  (partialTrace index this).2 = this.
Proof. reflexivity. Qed.

(** C7, amended.  [partialTrace(index)] raises [InvalidArgument] when
    [index < 0] or [index >= rank], and leaves the state as it was. *)
Theorem partialTrace_rejects_index (this : t D) (index : Z) :
  index < 0 \/ rank (space this) <= index ->
  partialTrace index this = (Throw InvalidArgument, this).
Proof.
  unfold partialTrace, space. intros [Hneg|Hbig].
  - by rewrite (proj2 (Z.ltb_lt index 0)).
  - destruct (index <? 0); [done|].
    by rewrite (proj2 (Z.leb_le (rank (_space this)) index)).
Qed.

End Generic.

(** *** The example states *)

Lemma valid_of (st : t Q) (sp : HilbertSpace.t) (m : matrix Q) :
  _space st = sp -> _density st = m -> HilbertSpace.valid sp ->
  is_shape (Z.to_nat (totalDimension sp)) (Z.to_nat (totalDimension sp)) m ->
  valid st.
Proof. intros <- <- Hsp Hm. by split. Qed.

Ltac prove_shape :=
  split; [ reflexivity | repeat constructor ].

Lemma up_valid : valid up.
Proof.
  apply (valid_of _ space2 (diag [1; 0]%Q));
    [vm_compute; reflexivity | vm_compute; reflexivity
    | apply HilbertSpaceFacts.space2_valid | prove_shape].
Qed.

Lemma mixed_valid : valid mixed.
Proof.
  apply (valid_of _ space22 (diag [1 # 2; 0; 1 # 4; 1 # 4]%Q));
    [vm_compute; reflexivity | vm_compute; reflexivity
    | apply HilbertSpaceFacts.space22_valid | prove_shape].
Qed.

Lemma skewed_valid : valid skewed.
Proof.
  apply (valid_of _ space22
           (diag [1 + (16 # 10 ^ 16); 0; - (8 # 10 ^ 16); - (8 # 10 ^ 16)]%Q));
    [vm_compute; reflexivity | vm_compute; reflexivity
    | apply HilbertSpaceFacts.space22_valid | prove_shape].
Qed.

Lemma heavy_valid : valid heavy.
Proof.
  apply (valid_of _ space21 (diag [1; 5 # 10 ^ 16]%Q));
    [vm_compute; reflexivity | vm_compute; reflexivity
    | apply HilbertSpaceFacts.space21_valid | prove_shape].
Qed.

(** *** The claims on QuantumState *)

(** C1 at the state [mixed], traced over its second factor. *)
Lemma partialTrace_sums_over_traced_factor_witness :
  exists (res : matrix Q) (d : Z),
    dimension (space mixed) 1 = Ok d /\
    partialTrace 1 mixed
    = (construct res (reduced_space (dimensions (space mixed)) 1), mixed) /\
    entry res 0 0
    = sum ((fun k : nat =>
              entry (densityMatrix mixed)
                    (full_index (dimensions (space mixed)) 1 0 (Z.of_nat k))
                    (full_index (dimensions (space mixed)) 1 0 (Z.of_nat k)))
             <$> seq 0 (Z.to_nat d)).
Proof.
  destruct (partialTrace_sums_over_traced_factor mixed 1 mixed_valid)
    as (res & d & Hd & _ & _ & Hrun & _ & Hent & _ & _).
  - vm_compute. split; [discriminate | reflexivity].
  - vm_compute. discriminate.
  - exists res, d. split; [exact Hd|]. split; [exact Hrun|].
    apply Hent; vm_compute; lia.
Defined.

(** C1, as stated, fails in three ways.  On the one-factor state [up] the
    reduced space has rank 0 and [getIndex] reads [vec[-1]]: no state is
    returned.  On the valid state [skewed] the constructor rejects the
    reduced matrix.  On [heavy], whose reduced space has total dimension 1,
    the constructor takes the 1x1 matrix for a column and normalizes it: the
    coefficient returned is 1, the sum of the two diagonal coefficients is
    not. *)
Lemma partialTrace_not_always_the_sum :
  (valid up /\ rank (space up) = 1 /\
   (partialTrace 0 up).1 = Throw Undefined) /\
  (valid skewed /\ construct (densityMatrix skewed) space22 = Ok skewed /\
   (partialTrace 1 skewed).1 = Throw InvalidArgument) /\
  (valid heavy /\ construct (densityMatrix heavy) space21 = Ok heavy /\
   exists st, (partialTrace 0 heavy).1 = Ok st /\
     entry (densityMatrix st) 0 0 = real 1%Q /\
     sum [entry (densityMatrix heavy) 0 0; entry (densityMatrix heavy) 1 1]
     = real (2000000000000001 # 2000000000000000)%Q /\
     entry (densityMatrix st) 0 0
     <> sum [entry (densityMatrix heavy) 0 0; entry (densityMatrix heavy) 1 1]).
Proof.
  split; [|split].
  - split; [apply up_valid|]. split; vm_compute; reflexivity.
  - split; [apply skewed_valid|]. split; vm_compute; reflexivity.
  - split; [apply heavy_valid|]. split; [vm_compute; reflexivity|].
    eexists. split; [vm_compute; reflexivity|].
    split; [vm_compute; reflexivity|]. split; [vm_compute; reflexivity|].
    vm_compute. discriminate.
Qed.

(** C7 at the state [up] and the index 5. *)
Lemma partialTrace_rejects_index_witness :
  (5 < 0 \/ rank (space up) <= 5) /\
  partialTrace 5 up = (Throw InvalidArgument, up).
Proof.
  assert (Hhyp : 5 < 0 \/ rank (space up) <= 5)
    by (right; vm_compute; discriminate).
  split; [exact Hhyp|]. exact (partialTrace_rejects_index up 5 Hhyp).
Defined.

(** C7, as stated, fails: on the valid state [skewed] the index 1 is in
    range and [partialTrace] raises [InvalidArgument], from the constructor
    that checks the reduced matrix diag(1 + 16e-16, -16e-16). *)
Lemma partialTrace_in_range_invalid_argument :
  construct (densityMatrix skewed) space22 = Ok skewed /\
  0 <= 1 < rank (space skewed) /\
  partialTrace 1 skewed = (Throw InvalidArgument, skewed).
Proof.
  split; [vm_compute; reflexivity|]. split.
  - vm_compute. split; [discriminate | reflexivity].
  - vm_compute. reflexivity.
Qed.

(** C2 fails on the code: [setMatrix] of the identity on the state [up]
    raises [InvalidArgument] (trace 2), the density matrix and the space
    stay, the eigenvalues and eigenvectors are those of the rejected
    matrix. *)
Theorem setMatrix_failure_overwrites_eigen :
  exists this' : t Q,
    setMatrix (diag [1; 1]%Q) up = (Throw InvalidArgument, this') /\
    densityMatrix this' = densityMatrix up /\
    space this' = space up /\
    eigenValues up = [0; 1]%Q /\
    eigenValues this' = [1; 1]%Q /\
    eigenVectors this' <> eigenVectors up.
Proof.
  eexists. split; [vm_compute; reflexivity|].
  repeat split; try (vm_compute; reflexivity).
  vm_compute. discriminate.
Qed.

(** C3 fails on the code: from the column (3, 4i) the constructor builds
    the product with the transpose, not the adjoint; that matrix is not
    self-adjoint (and has trace -7/25) and the constructor throws. *)
Theorem complex_column_rejected :
  cols column34i = 1%nat /\
  mul (normalize column34i) (transpose (normalize column34i))
  = [[real (9 # 25)%Q; imag (12 # 25)%Q]; [imag (12 # 25)%Q; real (-16 # 25)%Q]] /\
  mul (normalize column34i) (adjoint (normalize column34i))
  = [[real (9 # 25)%Q; imag (-12 # 25)%Q]; [imag (12 # 25)%Q; real (16 # 25)%Q]] /\
  _checkMatrixIsSelfAdjoined
    (mul (normalize column34i) (transpose (normalize column34i))) = false /\
  construct column34i space2 = Throw InvalidArgument.
Proof. repeat split; vm_compute; reflexivity. Qed.

(** [isPure] in exact arithmetic, on a projector and on the maximally
    mixed state of one qubit. *)
Example isPure_examples : isPure up = true /\ isPure balanced = false.
Proof. split; vm_compute; reflexivity. Qed.

End QuantumStateFacts.

(** * Purity, in exact real arithmetic *)

Module PurityFacts.
Import HilbertSpace Eigen QuantumState ExactReal EigenFacts.

Local Open Scope R_scope.

Lemma Rsum_ext (f g : nat -> R) (n : nat) :
  (forall i, (i < n)%nat -> f i = g i) -> Rsum f n = Rsum g n.
Proof.
  induction n as [|n IH]; intros Hfg; simpl; [reflexivity|].
  rewrite IH, Hfg by (intros; try apply Hfg; lia). reflexivity.
Qed.

Lemma Rsum_scal (a : R) (g : nat -> R) (n : nat) :
  Rsum (fun i => a * g i) n = a * Rsum g n.
Proof. induction n as [|n IH]; simpl; [lra|]. rewrite IH. lra. Qed.

Lemma Rsum_const (c : R) (n : nat) : Rsum (fun _ => c) n = INR n * c.
Proof.
  induction n as [|n IH]; [simpl; lra|].
  rewrite S_INR. simpl. rewrite IH. lra.
Qed.

(** A sum with one term that is not zero. *)
Lemma Rsum_single (g : nat -> R) (n i : nat) :
  (i < n)%nat -> (forall k, (k < n)%nat -> k <> i -> g k = 0) ->
  Rsum g n = g i.
Proof.
  induction n as [|n IH]; intros Hi Hz; [lia|]. simpl.
  destruct (decide (i = n)) as [->|Hne].
  - rewrite (Rsum_ext g (fun _ => 0)), Rsum_const by (intros; apply Hz; lia).
    lra.
  - rewrite IH, (Hz n) by (intros; try apply Hz; lia). lra.
Qed.

(** The sum of complex numbers, part by part. *)
Lemma sum_Rsum (f : nat -> complex R) (n : nat) :
  sum (f <$> seq 0 n)
  = Complex (Rsum (fun i => re (f i)) n) (Rsum (fun i => im (f i)) n).
Proof.
  induction n as [|n IH]; [reflexivity|].
  rewrite seq_S, fmap_app. unfold sum in *. rewrite foldl_app, IH.
  reflexivity.
Qed.

Lemma trace_of_square_parts (n : nat) (m : matrix R) :
  trace_of_square n m
  = Complex
      (Rsum (fun i => Rsum (fun k => re (cmul (entry m i k) (entry m k i))) n) n)
      (Rsum (fun i => Rsum (fun k => im (cmul (entry m i k) (entry m k i))) n) n).
Proof.
  unfold trace_of_square. rewrite sum_Rsum.
  f_equal; apply Rsum_ext; intros i _; by rewrite sum_Rsum.
Qed.

(** What [isPure] returns, from the two parts of the trace. *)
Lemma isPure_parts (this : t R) (n : nat) (x y : R) :
  is_shape n n (densityMatrix this) ->
  trace_of_square n (densityMatrix this) = Complex x y ->
  isPure this = Rltb (sqrt ((x - 1) * (x - 1) + y * y)) (/ 10 ^ 15).
Proof.
  unfold densityMatrix. intros Hshape Htr. unfold isPure. cbv zeta.
  rewrite (trace_mul_square _ n Hshape), Htr.
  unfold cabs, abs2, csub. simpl. do 2 f_equal. lra.
Qed.

(** X23.  In exact arithmetic, [isPure()] on a state with an n x n density
    matrix is true if and only if the modulus of trace(rho^2) - 1 is below
    1e-15; it is true when rho is the projector on a unit vector [v]
    (coefficients [v i * conj (v j)]) and false when rho is the maximally
    mixed state of dimension n > 1 (coefficients 1/n on the diagonal). *)
Theorem isPure_is_the_purity_test (this : t R) (n : nat) :
  is_shape n n (densityMatrix this) ->
  (isPure this = true <->
   sqrt ((re (trace_of_square n (densityMatrix this)) - 1) ^ 2
         + im (trace_of_square n (densityMatrix this)) ^ 2) < / 10 ^ 15) /\
  (forall v : nat -> complex R,
     Rsum (fun i => normsq (v i)) n = 1 ->
     (forall i j, (i < n)%nat -> (j < n)%nat ->
        entry (densityMatrix this) i j = cmul (v i) (cconj (v j))) ->
     isPure this = true) /\
  ((2 <= n)%nat ->
   (forall i j, (i < n)%nat -> (j < n)%nat ->
      entry (densityMatrix this) i j
      = if decide (i = j) then Complex (/ INR n) 0 else Complex 0 0) ->
   isPure this = false).
Proof.
  intros Hshape. split; [|split].
  - destruct (trace_of_square n (densityMatrix this)) as [x y] eqn:Htr.
    rewrite (isPure_parts this n x y Hshape Htr). simpl.
    replace ((x - 1) * ((x - 1) * 1) + y * (y * 1))
      with ((x - 1) * (x - 1) + y * y) by lra.
    unfold Rltb. destruct (Rlt_dec _ _); split; (done || intros; lra).
  - intros v Hunit Hent.
    rewrite (isPure_parts this n 1 0 Hshape).
    + replace ((1 - 1) * (1 - 1) + 0 * 0) with 0 by lra. rewrite sqrt_0.
      unfold Rltb. destruct (Rlt_dec _ _) as [|Hn]; [done|].
      exfalso. apply Hn. apply Rinv_0_lt_compat. apply pow_lt. lra.
    + rewrite trace_of_square_parts. f_equal.
      * rewrite <- Hunit at 1. apply Rsum_ext. intros i Hi.
        transitivity (Rsum (fun k => normsq (v i) * normsq (v k)) n).
        { apply Rsum_ext. intros k Hk. rewrite !Hent by done.
          unfold normsq. simpl. lra. }
        rewrite Rsum_scal, Hunit. lra.
      * rewrite (Rsum_ext _ (fun _ => 0)), Rsum_const by
          (intros i Hi; rewrite (Rsum_ext _ (fun _ => 0)), Rsum_const
             by (intros k Hk; rewrite !Hent by done; simpl; lra); lra).
        lra.
  - intros Hn Hent.
    assert (Hpos : 2 <= INR n) by (apply (le_INR 2); lia).
    rewrite (isPure_parts this n (/ INR n) 0 Hshape).
    + unfold Rltb. destruct (Rlt_dec _ _) as [Hlt|]; [|done]. exfalso.
      replace ((/ INR n - 1) * (/ INR n - 1) + 0 * 0)
        with (Rsqr (/ INR n - 1)) in Hlt by (unfold Rsqr; lra).
      rewrite sqrt_Rsqr_abs in Hlt.
      assert (Hinv : / INR n <= / 2)
        by (apply Rinv_le_contravar; lra).
      assert (Heps : / 10 ^ 15 <= / 2).
      { apply Rinv_le_contravar; [lra|].
        replace 2 with (2 ^ 1) at 1 by lra.
        apply Rle_trans with (10 ^ 1); [lra|]. apply Rle_pow; [lra | lia]. }
      rewrite Rabs_left in Hlt by lra. lra.
    + rewrite trace_of_square_parts. f_equal.
      * rewrite (Rsum_ext _ (fun _ => / INR n * / INR n)).
        { rewrite Rsum_const. field. lra. }
        intros i Hi. rewrite (Rsum_single _ n i Hi).
        { rewrite !Hent by done. rewrite decide_True by done. simpl. lra. }
        intros k Hk Hne. rewrite !Hent by done.
        rewrite decide_False by done. simpl. lra.
      * rewrite (Rsum_ext _ (fun _ => 0)), Rsum_const by
          (intros i Hi; rewrite (Rsum_ext _ (fun _ => 0)), Rsum_const
             by (intros k Hk; rewrite !Hent by done;
                 repeat case_decide; simpl; lra); lra).
        lra.
Qed.

(** The state of the one-dimensional space, the projector on the unit
    vector (3/5, 4/5) of one qubit, and the maximally mixed state of one
    qubit. *)
Lemma isPure_is_the_purity_test_witness :
  isPure point = true /\ isPure tilted = true /\ isPure unpolarized = false.
Proof.
  split; [|split].
  - assert (Hshape : is_shape 1 1 (densityMatrix point))
      by (split; [reflexivity | repeat constructor]).
    destruct (isPure_is_the_purity_test point 1 Hshape) as (_ & Hprojector & _).
    apply (Hprojector (fun _ => Complex 1 0)).
    + unfold normsq. simpl. lra.
    + intros i j Hi Hj. replace i with 0%nat by lia. replace j with 0%nat by lia.
      unfold entry, cmul, cconj. simpl. f_equal; lra.
  - assert (Hshape : is_shape 2 2 (densityMatrix tilted))
      by (split; [reflexivity | repeat constructor]).
    destruct (isPure_is_the_purity_test tilted 2 Hshape) as (_ & Hprojector & _).
    apply (Hprojector (fun i : nat => match i with
                                      | O => Complex (3 / 5) 0
                                      | _ => Complex (4 / 5) 0
                                      end)).
    + unfold normsq. simpl. lra.
    + intros i j Hi Hj.
      destruct i as [|[|i]]; [| |lia]; (destruct j as [|[|j]]; [| |lia]);
        unfold entry, cmul, cconj; simpl; f_equal; lra.
  - assert (Hshape : is_shape 2 2 (densityMatrix unpolarized))
      by (split; [reflexivity | repeat constructor]).
    destruct (isPure_is_the_purity_test unpolarized 2 Hshape) as (_ & _ & Hmixed).
    apply Hmixed; [lia|].
    intros i j Hi Hj.
    destruct i as [|[|i]]; [| |lia]; (destruct j as [|[|j]]; [| |lia]);
      unfold entry; simpl; f_equal; lra.
Defined.

End PurityFacts.

(** * Further laws of the spaces *)

Module HilbertSpaceLaws.
Import HilbertSpace MachineIntFacts HilbertSpaceFacts DigitFacts Examples.

(** *** Constructors *)

Lemma construct_loop_nonzero ds acc :
  0 ∉ ds -> is_int acc ->
  construct_loop ds acc = Ok (to_int (acc * product ds)).
Proof.
  revert acc. induction ds as [|d ds IH]; intros acc Hnz Hacc; simpl.
  - by rewrite Z.mul_1_r, to_int_id.
  - apply not_elem_of_cons in Hnz as [Hd Hnz].
    rewrite (proj2 (Z.eqb_neq d 0)) by done.
    rewrite IH by (done || apply to_int_is_int).
    change (foldr Z.mul 1 ds) with (product ds).
    rewrite to_int_mul_l, <- Z.mul_assoc, to_int_mul_uint. reflexivity.
Qed.

(** X1.  The list constructor throws [invalid_argument] exactly when one of the
    dimensions is 0.  Otherwise it keeps the list, takes its length as rank
    and the product of the dimensions, reduced to 32 bits, as total
    dimension: a product beyond [INT_MAX] is stored wrapped. *)
Theorem construct_dimensions_outcome (ds : list Z) :
  construct_dimensions ds
  = if decide (0 ∈ ds) then Throw InvalidArgument
    else Ok {| _rank := Z.of_nat (length ds);
               _dim := to_int (product ds);
               _dimensions := ds |}.
Proof.
  unfold construct_dimensions. destruct (decide (0 ∈ ds)) as [Hin|Hout].
  - rewrite construct_loop_zero; [reflexivity|].
    apply Exists_exists. by exists 0.
  - rewrite construct_loop_nonzero by (done || (unfold is_int, INT_MAX; lia)).
    simpl. by rewrite Z.mul_1_l.
Qed.

Lemma to_int_high z : INT_MAX < z <= UINT_MAX -> to_int z = z - 2 ^ 32.
Proof.
  unfold INT_MAX, UINT_MAX, to_int. intros Hz.
  replace (z + 2 ^ 31) with (z - 2 ^ 31 + 1 * 2 ^ 32) by lia.
  rewrite Z.mod_add, Z.mod_small by lia. lia.
Qed.

(** X2.  The one-argument constructor stores its [uint] argument into the [int]
    total dimension: a dimension above [INT_MAX] is accepted, and both
    [totalDimension()] and [dimension(0)] return it reduced by 2^32, a
    negative number. *)
Theorem construct_dim_narrows (dim : Z) :
  INT_MAX < dim <= UINT_MAX ->
  exists s : t,
    construct_dim dim = Ok s /\
    rank s = 1 /\ dimensions s = [dim] /\
    totalDimension s = dim - 2 ^ 32 /\ totalDimension s < 0 /\
    dimension s 0 = Ok (dim - 2 ^ 32).
Proof.
  intros Hdim. pose proof (to_int_high dim Hdim) as Hint.
  unfold INT_MAX, UINT_MAX in Hdim.
  unfold construct_dim. rewrite (proj2 (Z.eqb_neq dim 0)) by lia.
  eexists. split; [reflexivity|].
  unfold rank, dimensions, totalDimension, dimension. simpl.
  rewrite Hint. repeat split; lia.
Qed.

Lemma construct_dim_narrows_witness :
  exists s : t,
    construct_dim 3000000000 = Ok s /\ totalDimension s = 3000000000 - 2 ^ 32.
Proof.
  destruct (construct_dim_narrows 3000000000) as (s & Hs & _ & _ & Hdim & _).
  - vm_compute. split; [reflexivity | discriminate].
  - exists s. split; [exact Hs | exact Hdim].
Defined.

(** *** Accessors *)

(** X3.  On a valid space [dimension(index)] throws [out_of_range] exactly when
    the index is negative or not below the rank, and otherwise returns the
    factor at that position, which is at least 1 and at most the total
    dimension. *)
Theorem dimension_checked (s : t) (index : Z) :
  valid s ->
  match dimension s index with
  | Ok d =>
      0 <= index < rank s /\
      dimensions s !! Z.to_nat index = Some d /\
      1 <= d <= totalDimension s
  | Throw e => e = OutOfRange /\ (index < 0 \/ rank s <= index)
  end.
Proof.
  intros (Hr & Hds & Hdim & Hmax).
  unfold dimension, rank, dimensions, totalDimension.
  destruct (Z.ltb_spec index 0); [split; [done | lia]|].
  destruct (Z.leb_spec (_rank s) index); [split; [done | lia]|].
  destruct (lookup_lt_is_Some_2 (_dimensions s) (Z.to_nat index)) as [d Hd];
    [lia|].
  rewrite Hd.
  pose proof (Forall_lookup_1 _ _ _ _ Hds Hd) as Hdd. unfold is_dim in Hdd.
  pose proof (is_dim_le_product _ _ _ Hds Hd).
  rewrite to_int_id by (unfold is_int; lia).
  repeat split; lia || done.
Qed.

Lemma dimension_checked_witness :
  match dimension space22 1 with
  | Ok d => dimensions space22 !! 1%nat = Some d /\ 1 <= d <= totalDimension space22
  | Throw _ => False
  end.
Proof.
  pose proof (dimension_checked space22 1 space22_valid) as H.
  destruct (dimension space22 1) as [d|e].
  - destruct H as (_ & Hd & Hrange). split; [exact Hd | exact Hrange].
  - destruct H as [_ [Hneg|Hbig]]; [discriminate Hneg|].
    apply Hbig. reflexivity.
Defined.

(** X4.  On valid spaces [operator==], which compares the dimension lists only,
    decides equality of the spaces: rank and total dimension follow from
    the list. *)
Theorem eqb_valid (a b : t) :
  valid a -> valid b -> (eqb a b = true <-> a = b).
Proof.
  intros (Hra & _ & Hda & _) (Hrb & _ & Hdb & _). unfold eqb.
  rewrite bool_decide_eq_true. split; [|by intros ->].
  destruct a as [ra da la], b as [rb db lb]. simpl in *.
  intros ->. congruence.
Qed.

Lemma eqb_valid_witness : eqb space22 space22 = true <-> space22 = space22.
Proof. exact (eqb_valid space22 space22 space22_valid space22_valid). Defined.

(** *** Indices and multi-indices *)

(** X5.  [getVector] after [getIndex]: on a valid space of rank at least 1, a
    multi-index whose coordinates lie below the dimensions has a flat index
    in [0, totalDimension()), and [getVector] of it is the multi-index. *)
Theorem getVector_getIndex (s : t) (vec : list Z) :
  valid s -> 1 <= rank s -> in_range vec (dimensions s) ->
  exists i : Z,
    getIndex s vec = Ok i /\ 0 <= i < totalDimension s /\
    getVector s i = Ok vec.
Proof.
  unfold rank, dimensions, totalDimension. intros Hv Hrank Hvec.
  pose proof (valid_wf _ Hv) as Hwf.
  destruct Hv as (Hr & Hds & Hdim & Hmax).
  pose proof (Forall2_length _ _ _ Hvec) as Hlen.
  pose proof (compose_range _ _ Hds Hvec) as Hc.
  exists (compose (_dimensions s) vec).
  rewrite getIndex_spec by (done || lia).
  rewrite to_int_id by (unfold is_int; lia).
  split; [done|]. split; [lia|].
  rewrite getVector_spec by (done || lia).
  by rewrite decompose_compose.
Qed.

Lemma getVector_getIndex_witness :
  exists i : Z, getIndex space22 [1; 0] = Ok i /\ getVector space22 i = Ok [1; 0].
Proof.
  destruct (getVector_getIndex space22 [1; 0] space22_valid)
    as (i & Hi & _ & Hvec).
  - vm_compute. discriminate.
  - repeat constructor; vm_compute; (discriminate || reflexivity).
  - exists i. split; [exact Hi | exact Hvec].
Defined.



(** The coordinates that [getVector] writes, whatever the index: the one at
    position [k] is the quotient of the index by the product of the later
    dimensions, taken as an [unsigned], modulo the dimension at [k]. *)
Lemma getVector_loop_total dims x :
  Forall is_dim dims ->
  forall (n : nat) (vec : list Z),
    (n <= length dims)%nat -> length vec = length dims ->
    exists out : list Z,
      getVector_loop dims n vec (x / product (drop n dims)) = Ok out /\
      length out = length dims /\
      (forall k : nat, (n <= k)%nat -> out !! k = vec !! k) /\
      (forall (k : nat) (d : Z), (k < n)%nat -> dims !! k = Some d ->
         out !! k = Some (to_uint (x / product (drop (S k) dims)) mod d)).
Proof.
  intros Hds. induction n as [|i IH]; intros vec Hn Hlen; simpl.
  - exists vec. split; [done|]. split; [done|]. split; [done|]. intros; lia.
  - destruct (lookup_lt_is_Some_2 dims i) as [d Hd]; [lia|].
    rewrite Hd. pose proof (Forall_lookup_1 _ _ _ _ Hds Hd) as Hdim.
    rewrite (is_dim_nonzero _ Hdim).
    assert (Hp : 1 <= product (drop (S i) dims))
      by (apply product_pos, Forall_drop, Hds).
    unfold is_dim in Hdim.
    set (q := x / product (drop (S i) dims)).
    destruct (IH (<[i := to_uint q mod d]> vec))
      as (out & Hrun & Hout & Hkeep & Hnew); [lia | by rewrite length_insert |].
    replace (x / product (drop i dims)) with (q / d) in Hrun.
    2: { unfold q. rewrite (drop_S _ _ _ Hd), product_cons.
         rewrite (Z.mul_comm d), <- Z.div_div by lia. done. }
    exists out. split; [exact Hrun|]. split; [done|]. split.
    + intros k Hk. rewrite Hkeep by lia. apply list_lookup_insert_ne. lia.
    + intros k e Hk He. destruct (decide (k = i)) as [->|Hne].
      * rewrite Hkeep by lia. rewrite list_lookup_insert_eq by lia.
        rewrite Hd in He. by injection He as <-.
      * apply Hnew; [lia | done].
Qed.

(** X7.  [getVector] never fails on a valid space: for every [int] index, also
    a negative one or one beyond the total dimension, it returns [rank()]
    coordinates, each below its dimension. *)
Theorem getVector_total (s : t) (index : Z) :
  valid s -> is_int index ->
  exists vec : list Z,
    getVector s index = Ok vec /\
    in_range vec (dimensions s) /\
    (forall (k : nat) (d : Z), dimensions s !! k = Some d ->
       vec !! k
       = Some (to_uint (index / product (drop (S k) (dimensions s))) mod d)).
Proof.
  unfold dimensions. intros (Hr & Hds & _ & _) _.
  destruct (getVector_loop_total (_dimensions s) index Hds
              (length (_dimensions s)) (replicate (length (_dimensions s)) 0))
    as (vec & Hrun & Hlen & _ & Hnew); [lia | apply length_replicate |].
  rewrite drop_all, Z.div_1_r in Hrun.
  exists vec. split; [|split].
  - unfold getVector. by rewrite Hr, Nat2Z.id.
  - apply Forall2_same_length_lookup_2; [done|].
    intros k v d Hv Hd. rewrite (Hnew k d) in Hv by (by eapply lookup_lt_Some || done).
    injection Hv as <-. apply Z.mod_pos_bound.
    pose proof (Forall_lookup_1 _ _ _ _ Hds Hd) as Hdim. unfold is_dim in Hdim. lia.
  - intros k d Hd. apply Hnew; [by eapply lookup_lt_Some | done].
Qed.

(** In [HilbertSpace({2, 2})] the index -1 has the coordinates (1, 1). *)
Lemma getVector_total_witness :
  exists vec : list Z,
    getVector space22 (-1) = Ok vec /\ in_range vec (dimensions space22).
Proof.
  destruct (getVector_total space22 (-1) space22_valid) as (vec & Hvec & Hrange & _).
  - vm_compute. split; discriminate.
  - exists vec. split; [exact Hvec | exact Hrange].
Defined.

(** *** tensorWith of an object with itself *)

(** The loop of [tensorWith] when [second] is [*this]: the vector read is
    the vector being extended. *)
Lemma tensorWith_loop_self (a : addr) (r dm : Z) (l0 : list Z) :
  forall (todo i : nat) (h : store),
    h !! a = Some {| _rank := r; _dim := dm;
                     _dimensions := l0 ++ take i (l0 ++ l0) |} ->
    (i + todo <= 2 * length l0)%nat ->
    tensorWith_loop a a i todo h
    = Ok (<[a := {| _rank := r; _dim := dm;
                    _dimensions := l0 ++ take (i + todo) (l0 ++ l0) |}]> h).
Proof.
  induction todo as [|todo IH]; intros i h Hs Hlen; simpl.
  - rewrite Nat.add_0_r. f_equal. symmetry. by apply insert_id.
  - rewrite (deref_Some _ _ _ Hs). simpl.
    assert (Hread : (l0 ++ take i (l0 ++ l0)) !! i = (l0 ++ l0) !! i).
    { destruct (decide (i < length l0)%nat).
      - by rewrite !lookup_app_l by done.
      - rewrite !lookup_app_r by lia.
        rewrite lookup_take_lt by lia. apply lookup_app_l. lia. }
    destruct (lookup_lt_is_Some_2 (l0 ++ l0) i) as [d Hd];
      [rewrite length_app; lia|].
    rewrite Hread, Hd.
    rewrite (IH (S i)).
    + rewrite insert_insert_eq.
      by replace (S i + todo)%nat with (i + S todo)%nat by lia.
    + rewrite lookup_insert_eq. unfold push_back. simpl. do 2 f_equal.
      rewrite <- app_assoc. f_equal. symmetry. by apply take_S_r.
    + lia.
Qed.

(** X8.  [a.tensorWith(a)] on a space with n dimensions leaves it with rank 2n
    and 3n dimensions, its own list three times over: the loop bound is the
    rank already doubled, and the loop reads the vector it extends.  The
    total dimension is squared. *)
Theorem tensorWith_aliased (h : store) (a : addr) (s : t) :
  h !! a = Some s -> rank s = Z.of_nat (length (dimensions s)) ->
  tensorWith a a h
  = Ok (<[a := {| _rank := rank s + rank s;
                  _dim := to_int (totalDimension s * totalDimension s);
                  _dimensions := dimensions s ++ dimensions s ++ dimensions s |}]> h).
Proof.
  unfold rank, dimensions, totalDimension. intros Hs Hr.
  unfold tensorWith. rewrite (deref_Some _ _ _ Hs). simpl.
  erewrite deref_Some by apply lookup_insert_eq. simpl.
  rewrite (tensorWith_loop_self a (_rank s + _rank s) (_dim s) (_dimensions s)
             (Z.to_nat (_rank s + _rank s)) 0).
  - simpl. erewrite deref_Some by apply lookup_insert_eq. simpl.
    rewrite !insert_insert_eq. unfold set_dim. simpl. do 4 f_equal.
    apply take_ge. rewrite length_app. lia.
  - rewrite lookup_insert_eq. unfold set_rank. by rewrite take_0, app_nil_r.
  - lia.
Qed.

Lemma tensorWith_aliased_witness :
  tensorWith 1 1 (<[0%nat := space2]> (<[1%nat := space22]> ∅))
  = Ok (<[1%nat := {| _rank := 4; _dim := 16;
                      _dimensions := [2; 2; 2; 2; 2; 2] |}]>
          (<[0%nat := space2]> (<[1%nat := space22]> ∅))).
Proof.
  apply (tensorWith_aliased (<[0%nat := space2]> (<[1%nat := space22]> ∅))
           1%nat space22); reflexivity.
Defined.

(** *** The tensor product and the index maps *)

Lemma decompose_reduce ds x :
  Forall is_dim ds -> decompose ds (x mod product ds) = decompose ds x.
Proof.
  intros Hds. pose proof (product_pos _ Hds).
  rewrite <- (decompose_add_multiple ds (x mod product ds) (x / product ds))
    by done.
  f_equal. rewrite (Z.div_mod x (product ds)) at 3 by lia. lia.
Qed.

Lemma decompose_app ds es x :
  Forall is_dim ds -> Forall is_dim es ->
  decompose (ds ++ es) x = decompose ds (x / product es) ++ decompose es x.
Proof.
  intros Hds Hes. pose proof (product_pos _ Hes).
  induction Hds as [|d ds Hd Hds IH]; simpl; [reflexivity|].
  change (foldr Z.mul 1 (ds ++ es)) with (product (ds ++ es)).
  change (foldr Z.mul 1 ds) with (product ds).
  pose proof (product_pos _ Hds).
  rewrite IH, product_app, (Z.mul_comm (product ds)), Z.div_div by lia.
  reflexivity.
Qed.

Lemma tensor_of_valid (a b : t) :
  valid a -> valid b -> totalDimension a * totalDimension b <= INT_MAX ->
  valid {| _rank := _rank a + _rank b;
           _dim := to_int (_dim a * _dim b);
           _dimensions := _dimensions a ++ _dimensions b |}.
Proof.
  unfold totalDimension.
  intros (Hra & Hda & Hdima & _) (Hrb & Hdb & Hdimb & _) Hfit.
  pose proof (product_pos _ Hda). pose proof (product_pos _ Hdb).
  split; [|split; [|split]]; simpl.
  - rewrite length_app. lia.
  - by apply Forall_app.
  - rewrite to_int_id by (unfold is_int; nia).
    by rewrite product_app, Hdima, Hdimb.
  - rewrite product_app. lia.
Qed.

(** X9.  The flat index in a tensor product: when the product of the total
    dimensions is an [int], the space that [tensor] returns is valid, and
    [getIndex] of two multi-indices put one after the other is the index of
    the first times the total dimension of the second space, plus the index
    of the second. *)
Theorem getIndex_tensor (h : store) (first second : addr) (a b : t)
    (va vb : list Z) :
  h !! first = Some a -> h !! second = Some b -> valid a -> valid b ->
  1 <= rank a -> 1 <= rank b ->
  totalDimension a * totalDimension b <= INT_MAX ->
  in_range va (dimensions a) -> in_range vb (dimensions b) ->
  exists (r : t) (ia ib : Z),
    tensor first second h = Ok (r, h) /\ valid r /\
    totalDimension r = totalDimension a * totalDimension b /\
    getIndex a va = Ok ia /\ getIndex b vb = Ok ib /\
    getIndex r (va ++ vb) = Ok (ia * totalDimension b + ib).
Proof.
  unfold rank, dimensions, totalDimension.
  intros Ha Hb Hva Hvb Hranka Hrankb Hfit Hina Hinb.
  pose proof (tensor_of_valid a b Hva Hvb Hfit) as Hvr.
  destruct Hva as (Hra & Hda & Hdima & Hmaxa).
  destruct Hvb as (Hrb & Hdb & Hdimb & Hmaxb).
  pose proof (Forall2_length _ _ _ Hina) as Hlena.
  pose proof (Forall2_length _ _ _ Hinb) as Hlenb.
  pose proof (compose_range _ _ Hda Hina) as Hca.
  pose proof (compose_range _ _ Hdb Hinb) as Hcb.
  eexists _, (compose (_dimensions a) va), (compose (_dimensions b) vb).
  split; [by apply tensor_spec|]. split; [exact Hvr|]. simpl.
  split; [apply to_int_id; unfold is_int; nia|].
  rewrite !getIndex_spec; simpl; rewrite ?length_app; try (done || lia).
  rewrite compose_app by done.
  rewrite !to_int_id by (unfold is_int; nia).
  by rewrite Hdimb.
Qed.

(** [HilbertSpace(2)] and [HilbertSpace({2, 2})]: the multi-index (1) has
    index 1, (1, 0) has index 2, and (1, 1, 0) has index 1 * 4 + 2. *)
Lemma getIndex_tensor_witness :
  exists (r : t) (ia ib : Z),
    tensor 0 1 (<[0%nat := space2]> (<[1%nat := space22]> ∅))
    = Ok (r, <[0%nat := space2]> (<[1%nat := space22]> ∅)) /\
    getIndex space2 [1] = Ok ia /\ getIndex space22 [1; 0] = Ok ib /\
    getIndex r [1; 1; 0] = Ok (ia * totalDimension space22 + ib).
Proof.
  destruct (getIndex_tensor (<[0%nat := space2]> (<[1%nat := space22]> ∅))
              0%nat 1%nat space2 space22 [1] [1; 0])
    as (r & ia & ib & Hr & _ & _ & Hia & Hib & Hidx).
  - reflexivity.
  - reflexivity.
  - apply space2_valid.
  - apply space22_valid.
  - vm_compute. discriminate.
  - vm_compute. discriminate.
  - vm_compute. discriminate.
  - repeat constructor; vm_compute; (discriminate || reflexivity).
  - repeat constructor; vm_compute; (discriminate || reflexivity).
  - exists r, ia, ib. repeat split; assumption.
Defined.

(** X10.  The multi-index in a tensor product: under the same condition,
    [getVector] of a flat index below the total dimension is the
    multi-index, in the first space, of the quotient by the total dimension
    of the second space, followed by the multi-index, in the second space,
    of the remainder. *)
Theorem getVector_tensor (h : store) (first second : addr) (a b : t) (i : Z) :
  h !! first = Some a -> h !! second = Some b -> valid a -> valid b ->
  totalDimension a * totalDimension b <= INT_MAX ->
  0 <= i < totalDimension a * totalDimension b ->
  exists (r : t) (va vb : list Z),
    tensor first second h = Ok (r, h) /\
    getVector a (i / totalDimension b) = Ok va /\
    getVector b (i mod totalDimension b) = Ok vb /\
    getVector r i = Ok (va ++ vb).
Proof.
  unfold totalDimension. intros Ha Hb Hva Hvb Hfit Hi.
  pose proof (valid_wf _ (tensor_of_valid a b Hva Hvb Hfit)) as Hwr.
  pose proof (valid_wf _ Hva) as Hwa. pose proof (valid_wf _ Hvb) as Hwb.
  destruct Hva as (Hra & Hda & Hdima & Hmaxa).
  destruct Hvb as (Hrb & Hdb & Hdimb & Hmaxb).
  pose proof (product_pos _ Hda). pose proof (product_pos _ Hdb).
  assert (Hq : 0 <= i / _dim b <= i).
  { split; [apply Z.div_pos; lia|]. apply Z.div_le_upper_bound; nia. }
  pose proof (Z.mod_pos_bound i (_dim b) ltac:(lia)) as Hm.
  eexists _, _, _. split; [by apply tensor_spec|].
  rewrite !getVector_spec by (done || lia). simpl.
  split; [reflexivity|]. split; [reflexivity|].
  rewrite decompose_app by done. rewrite Hdimb.
  by rewrite decompose_reduce.
Qed.

Lemma getVector_tensor_witness :
  exists (r : t) (va vb : list Z),
    tensor 0 1 (<[0%nat := space2]> (<[1%nat := space22]> ∅))
    = Ok (r, <[0%nat := space2]> (<[1%nat := space22]> ∅)) /\
    getVector space2 (6 / totalDimension space22) = Ok va /\
    getVector space22 (6 mod totalDimension space22) = Ok vb /\
    getVector r 6 = Ok (va ++ vb).
Proof.
  apply (getVector_tensor (<[0%nat := space2]> (<[1%nat := space22]> ∅))
           0%nat 1%nat space2 space22 6).
  - reflexivity.
  - reflexivity.
  - apply space2_valid.
  - apply space22_valid.
  - vm_compute. discriminate.
  - vm_compute. split; [discriminate | reflexivity].
Defined.

(** X11.  [tensor] is associative on the spaces, wrapped total dimension
    included: with the intermediate results stored at unused addresses,
    (a (x) b) (x) c and a (x) (b (x) c) are the same space. *)
Theorem tensor_assoc (h : store) (pa pb pc p q : addr) (a b c : t) :
  h !! pa = Some a -> h !! pb = Some b -> h !! pc = Some c ->
  h !! p = None -> h !! q = None ->
  rank b = Z.of_nat (length (dimensions b)) ->
  rank c = Z.of_nat (length (dimensions c)) ->
  exists ab bc r : t,
    tensor pa pb h = Ok (ab, h) /\
    tensor pb pc h = Ok (bc, h) /\
    tensor p pc (<[p := ab]> h) = Ok (r, <[p := ab]> h) /\
    tensor pa q (<[q := bc]> h) = Ok (r, <[q := bc]> h).
Proof.
  unfold rank, dimensions. intros Ha Hb Hc Hp Hq Hrb Hrc.
  eexists _, _, _.
  split; [by apply tensor_spec|]. split; [by apply tensor_spec|]. split.
  - apply tensor_spec;
      [apply lookup_insert_eq | rewrite lookup_insert_ne by congruence; done
      | done].
  - erewrite tensor_spec;
      [| rewrite lookup_insert_ne by congruence; done
       | apply lookup_insert_eq
       | simpl; rewrite length_app; lia].
    simpl. do 2 f_equal. f_equal.
    + lia.
    + rewrite to_int_mul_l, to_int_mul_r. f_equal. lia.
    + by rewrite app_assoc.
Qed.

Lemma tensor_assoc_witness :
  exists ab bc r : t,
    tensor 0 1 (<[0%nat := space2]> (<[1%nat := space22]> ∅))
    = Ok (ab, <[0%nat := space2]> (<[1%nat := space22]> ∅)) /\
    tensor 1 0 (<[0%nat := space2]> (<[1%nat := space22]> ∅))
    = Ok (bc, <[0%nat := space2]> (<[1%nat := space22]> ∅)) /\
    tensor 2 0 (<[2%nat := ab]> (<[0%nat := space2]> (<[1%nat := space22]> ∅)))
    = Ok (r, <[2%nat := ab]> (<[0%nat := space2]> (<[1%nat := space22]> ∅))) /\
    tensor 0 3 (<[3%nat := bc]> (<[0%nat := space2]> (<[1%nat := space22]> ∅)))
    = Ok (r, <[3%nat := bc]> (<[0%nat := space2]> (<[1%nat := space22]> ∅))).
Proof.
  apply (tensor_assoc (<[0%nat := space2]> (<[1%nat := space22]> ∅))
           0%nat 1%nat 0%nat 2%nat 3%nat space2 space22 space2);
    reflexivity.
Defined.

End HilbertSpaceLaws.

(** * Further laws of the states *)

Module QuantumStateLaws.
Import HilbertSpace Eigen QuantumState Exact Examples.
Import MachineIntFacts HilbertSpaceFacts EigenFacts PartialTraceFacts.

Section Generic.
Context {D : Type} `{Scalar D} `{!SelfAdjointEigenSolver D}.

Lemma existsb_false {A} (f : A -> bool) (l : list A) :
  existsb f l = false <-> Forall (fun x => f x = false) l.
Proof.
  induction l as [|x l IH]; simpl; [by split|].
  rewrite orb_false_iff, Forall_cons, IH. done.
Qed.

Lemma construct_Ok (matr : matrix D) (sp : HilbertSpace.t) (st : t D) :
  construct matr sp = Ok st ->
  let dens := if decide (cols matr = 1%nat)
              then mul (normalize matr) (transpose (normalize matr))
              else matr in
  exists vals vecs,
    st = mk dens sp vals vecs /\
    (cols matr = 1%nat \/ cols matr = rows matr) /\
    _checkMatrixIsSelfAdjoined dens = true /\
    compute dens = Some (vals, vecs) /\
    existsb (fun v => d_ltb d_epsilon (d_abs v) && d_ltb v d_zero) vals = false /\
    d_ltb d_epsilon (cabs (csub (trace dens) (Complex d_one d_zero))) = false /\
    totalDimension sp = Z.of_nat (rows dens).
Proof.
  unfold construct, _checkMatrixIsSquare, _calculateEigenValuesAndVectors,
    _checkMatrixIsDensityMatrix, _checkSpaceDimension, set_density, set_space,
    set_eigen, get, throw, mbind, method_bind, mret, method_ret.
  cbv zeta.
  destruct (decide (cols matr = 1%nat)) as [Hcol|Hcol]; simpl.
  - set (dens := mul (normalize matr) (transpose (normalize matr))).
    destruct (_checkMatrixIsSelfAdjoined dens) eqn:Hadj; simpl; [|done].
    destruct (compute dens) as [[vals vecs]|] eqn:Hsolve; simpl; [|done].
    destruct (existsb _ vals) eqn:Hneg; simpl; [done|].
    destruct (d_ltb d_epsilon _) eqn:Htr; simpl; [done|].
    destruct (decide _) as [Hdim|Hdim]; simpl; [|done].
    intros [= <-]. exists vals, vecs. repeat split; auto.
  - destruct (decide (cols matr = rows matr)) as [Hsq|Hsq]; simpl; [|done].
    destruct (_checkMatrixIsSelfAdjoined matr) eqn:Hadj; simpl; [|done].
    destruct (compute matr) as [[vals vecs]|] eqn:Hsolve; simpl; [|done].
    destruct (existsb _ vals) eqn:Hneg; simpl; [done|].
    destruct (d_ltb d_epsilon _) eqn:Htr; simpl; [done|].
    destruct (decide _) as [Hdim|Hdim]; simpl; [|done].
    intros [= <-]. exists vals, vecs. repeat split; auto.
Qed.

(** X12.  What the constructor checks and what it stores.  When it returns, the
    density matrix is the argument, or, for an argument of one column, the
    product of the normalized column with its transpose; it has passed the
    self-adjointness test, the stored eigenvalues and eigenvectors are those
    the solver gives for it, no eigenvalue is both beyond 1e-15 in modulus
    and negative, the trace is within 1e-15 of 1 and the row count is the
    total dimension of the space, which is stored.  When it throws, it
    throws [invalid_argument], or [runtime_error] when the solver fails on
    a matrix that passed the self-adjointness test. *)
Theorem construct_outcome (matr : matrix D) (sp : HilbertSpace.t) :
  let dens := if decide (cols matr = 1%nat)
              then mul (normalize matr) (transpose (normalize matr))
              else matr in
  match construct matr sp with
  | Ok st =>
      densityMatrix st = dens /\ space st = sp /\
      (cols matr = 1%nat \/ cols matr = rows matr) /\
      _checkMatrixIsSelfAdjoined dens = true /\
      compute dens = Some (eigenValues st, eigenVectors st) /\
      Forall (fun v => d_ltb d_epsilon (d_abs v) && d_ltb v d_zero = false)
             (eigenValues st) /\
      d_ltb d_epsilon (cabs (csub (trace dens) (Complex d_one d_zero))) = false /\
      totalDimension sp = Z.of_nat (rows dens)
  | Throw e =>
      e = InvalidArgument \/
      (e = RuntimeError /\ _checkMatrixIsSelfAdjoined dens = true /\
       compute dens = None)
  end.
Proof.
  unfold construct, _checkMatrixIsSquare, _calculateEigenValuesAndVectors,
    _checkMatrixIsDensityMatrix, _checkSpaceDimension, set_density, set_space,
    set_eigen, get, throw, mbind, method_bind, mret, method_ret,
    densityMatrix, space, eigenValues, eigenVectors.
  cbv zeta.
  destruct (decide (cols matr = 1%nat)) as [Hcol|Hcol]; simpl.
  - set (dens := mul (normalize matr) (transpose (normalize matr))).
    destruct (_checkMatrixIsSelfAdjoined dens) eqn:Hadj; simpl; [|by left].
    destruct (compute dens) as [[vals vecs]|] eqn:Hsolve; simpl;
      [|by right].
    destruct (existsb _ vals) eqn:Hneg; simpl; [by left|].
    destruct (d_ltb d_epsilon _) eqn:Htr; simpl; [by left|].
    destruct (decide _) as [Hdim|Hdim]; simpl; [|by left].
    apply existsb_false in Hneg. repeat split; auto.
  - destruct (decide (cols matr = rows matr)) as [Hsq|Hsq]; simpl; [|by left].
    destruct (_checkMatrixIsSelfAdjoined matr) eqn:Hadj; simpl; [|by left].
    destruct (compute matr) as [[vals vecs]|] eqn:Hsolve; simpl;
      [|by right].
    destruct (existsb _ vals) eqn:Hneg; simpl; [by left|].
    destruct (d_ltb d_epsilon _) eqn:Htr; simpl; [by left|].
    destruct (decide _) as [Hdim|Hdim]; simpl; [|by left].
    apply existsb_false in Hneg. repeat split; auto.
Qed.

(** X13.  What [setMatrix] changes.  It never changes the space.  When it
    returns, the argument is square, of the total dimension of the space,
    has passed the checks of the constructor, and is the density matrix;
    the eigenvalues and eigenvectors are the solver's for it.  When it
    throws, it throws [invalid_argument] or [runtime_error], the density
    matrix is the one before the call, and the object is as before the call
    unless the exception comes from the density-matrix check, after the
    solver's results for the argument have been stored. *)
Theorem setMatrix_outcome (matr : matrix D) (this : t D) :
  match setMatrix matr this with
  | (Ok _, this') =>
      densityMatrix this' = matr /\ space this' = space this /\
      cols matr = rows matr /\
      totalDimension (space this) = Z.of_nat (rows matr) /\
      _checkMatrixIsSelfAdjoined matr = true /\
      compute matr = Some (eigenValues this', eigenVectors this') /\
      Forall (fun v => d_ltb d_epsilon (d_abs v) && d_ltb v d_zero = false)
             (eigenValues this') /\
      d_ltb d_epsilon (cabs (csub (trace matr) (Complex d_one d_zero))) = false
  | (Throw e, this') =>
      densityMatrix this' = densityMatrix this /\ space this' = space this /\
      (e = InvalidArgument \/ e = RuntimeError) /\
      (this' = this \/
       (e = InvalidArgument /\
        compute matr = Some (eigenValues this', eigenVectors this')))
  end.
Proof.
  unfold setMatrix, _checkMatrixIsSquare, _calculateEigenValuesAndVectors,
    _checkMatrixIsDensityMatrix, _checkSpaceDimension, set_density, set_space,
    set_eigen, get, throw, mbind, method_bind, mret, method_ret,
    densityMatrix, space, eigenValues, eigenVectors.
  destruct (decide (cols matr = rows matr)) as [Hsq|Hsq]; simpl; [|by auto].
  destruct (decide _) as [Hdim|Hdim]; simpl; [|by auto].
  destruct (_checkMatrixIsSelfAdjoined matr) eqn:Hadj; simpl; [|by auto].
  destruct (compute matr) as [[vals vecs]|] eqn:Hsolve; simpl; [|by auto].
  destruct (existsb _ vals) eqn:Hneg; simpl; [by auto 6|].
  destruct (d_ltb d_epsilon _) eqn:Htr; simpl; [by auto 6|].
  apply existsb_false in Hneg. repeat split; auto.
Qed.

(** The product of a column with its transpose is square. *)
Lemma column_square (m : matrix D) :
  cols m = 1%nat -> cols (mul m (transpose m)) = rows (mul m (transpose m)).
Proof.
  intros Hcol. destruct m as [|r m]; [done|].
  unfold rows, mul. rewrite length_fmap. simpl.
  rewrite length_fmap. unfold transpose at 1. rewrite length_fmap, length_seq.
  unfold transpose. simpl in Hcol. simpl. rewrite Hcol. simpl.
  by rewrite length_fmap.
Qed.

Lemma cols_normalize (m : matrix D) : cols (normalize m) = cols m.
Proof.
  unfold normalize. destruct m as [|r m]; [done|]. simpl. apply length_fmap.
Qed.

(** X14.  A state that the constructor returned accepts its own density matrix:
    [setMatrix(densityMatrix())] returns and changes nothing. *)
Theorem setMatrix_own_matrix (matr : matrix D) (sp : HilbertSpace.t) (st : t D) :
  construct matr sp = Ok st ->
  setMatrix (densityMatrix st) st = (Ok (), st).
Proof.
  intros Hst. apply construct_Ok in Hst. cbv zeta in Hst.
  destruct Hst as (vals & vecs & -> & Hshape & Hadj & Hsolve & Hneg & Htr & Hdim).
  unfold densityMatrix. simpl.
  set (dens := if decide (cols matr = 1%nat)
               then mul (normalize matr) (transpose (normalize matr))
               else matr) in *.
  assert (Hsq : cols dens = rows dens).
  { unfold dens. destruct (decide (cols matr = 1%nat)) as [Hcol|Hcol].
    - apply column_square. by rewrite cols_normalize.
    - by destruct Hshape. }
  unfold setMatrix, _checkMatrixIsSquare, _calculateEigenValuesAndVectors,
    _checkMatrixIsDensityMatrix, _checkSpaceDimension, set_density, set_space,
    set_eigen, get, throw, mbind, method_bind, mret, method_ret.
  rewrite decide_True by done. simpl. rewrite decide_True by done.
  rewrite Hadj, Hsolve. simpl. rewrite Hneg, Htr. reflexivity.
Qed.

(** X15.  On a space of one factor [partialTrace(0)] returns no state: the
    reduced space has rank 0, and [getIndex] on it reads [vec[-1]]. *)
Theorem partialTrace_single_factor (this : t D) :
  valid this -> rank (space this) = 1 ->
  partialTrace 0 this = (Throw Undefined, this).
Proof.
  unfold rank, space. intros [Hsp Hshape] Hrank.
  pose proof (valid_wf _ Hsp) as Hwf.
  destruct Hsp as (Hr & Hds & Hdim & Hmax).
  destruct (_dimensions (_space this)) as [|d [|? ?]] eqn:Hdims;
    simpl in Hr; try lia.
  apply Forall_cons in Hds as [Hd _]. unfold is_dim in Hd.
  unfold product in Hdim, Hmax. simpl in Hdim, Hmax.
  rewrite Z.mul_1_r in Hdim, Hmax.
  unfold partialTrace, rank. rewrite Hrank. simpl. f_equal.
  unfold partialTrace_matrix, dimensions, totalDimension.
  rewrite Hdims, Hdim. simpl.
  assert (Hbody : forall res : matrix D,
            partialTrace_body this 0
              {| _rank := Z.of_nat 0; _dim := 1; _dimensions := [] |}
              0 0 res = Throw Undefined).
  { intros res. unfold partialTrace_body.
    rewrite (getVector_spec (_space this)) by (done || unfold INT_MAX; lia).
    rewrite Hdims. simpl. rewrite Z.div_1_r, Z.mod_0_l by lia.
    unfold matrixElement.
    rewrite (getIndex_spec (_space this) [0])
      by (rewrite ?Hdims; simpl; lia).
    rewrite Hdims. simpl. rewrite Z.mul_1_r, Z.add_0_r.
    change (to_int 0) with (Z.of_nat 0).
    unfold totalDimension in Hshape. rewrite Hdim in Hshape.
    rewrite (coeff_entry _ _ _ 0 0 Hshape) by lia. reflexivity. }
  destruct (Z.to_nat d) as [|n] eqn:Hn; [lia|]. simpl.
  unfold dimension. rewrite Hrank, Hdims. simpl.
  rewrite to_int_id by (unfold is_int; lia). simpl.
  rewrite (proj2 (Z.eqb_neq d 0)) by lia. simpl.
  rewrite Z.quot_same by lia. simpl. by rewrite Hbody.
Qed.

(** In a space of two factors, the flat index of (k, i). *)
Lemma full_index_two_first (na nb i k : nat) :
  (i < nb)%nat -> (k < na)%nat ->
  full_index [Z.of_nat na; Z.of_nat nb] 0 i (Z.of_nat k) = (k * nb + i)%nat.
Proof.
  intros Hi Hk. unfold full_index, with_digit. simpl.
  rewrite Z.div_1_r, Z.mod_small by lia. lia.
Qed.

(** X16.  A state of two factors, of dimensions [na] and [nb].  [partialTrace(0)]
    hands to the constructor the space of the second factor and the sum of
    the [na] diagonal blocks of the density matrix; [partialTrace(1)] hands
    over the space of the first factor and the matrix of the traces of the
    [nb] x [nb] blocks. *)
Theorem partialTrace_two_factors (this : t D) (na nb : nat) :
  valid this ->
  dimensions (space this) = [Z.of_nat na; Z.of_nat nb] ->
  exists res0 res1 : matrix D,
    partialTrace 0 this
    = (construct res0 {| _rank := 1; _dim := Z.of_nat nb;
                         _dimensions := [Z.of_nat nb] |}, this) /\
    partialTrace 1 this
    = (construct res1 {| _rank := 1; _dim := Z.of_nat na;
                         _dimensions := [Z.of_nat na] |}, this) /\
    is_shape nb nb res0 /\ is_shape na na res1 /\
    (forall i j : nat, (i < nb)%nat -> (j < nb)%nat ->
       entry res0 i j
       = sum ((fun k : nat =>
                 entry (densityMatrix this) (k * nb + i) (k * nb + j))
                <$> seq 0 na)) /\
    (forall i j : nat, (i < na)%nat -> (j < na)%nat ->
       entry res1 i j
       = sum ((fun k : nat =>
                 entry (densityMatrix this) (i * nb + k) (j * nb + k))
                <$> seq 0 nb)).
Proof.
  unfold dimensions, space, densityMatrix. intros Hvalid Hds.
  pose proof Hvalid as [(Hrk & _) _]. rewrite Hds in Hrk. simpl in Hrk.
  assert (Hrank : (2 <= length (dimensions (_space this)))%nat)
    by (unfold dimensions; rewrite Hds; simpl; lia).
  destruct (partialTrace_matrix_spec this 0 (Z.of_nat na) Hvalid
              ltac:(unfold dimensions; by rewrite Hds) Hrank)
    as (res0 & Hrun0 & Hshape0 & Hent0).
  destruct (partialTrace_matrix_spec this 1 (Z.of_nat nb) Hvalid
              ltac:(unfold dimensions; by rewrite Hds) Hrank)
    as (res1 & Hrun1 & Hshape1 & Hent1).
  rewrite Hds in Hrun0, Hrun1, Hshape0, Hshape1, Hent0, Hent1.
  unfold reduced_space, product in Hrun0, Hrun1, Hshape0, Hshape1, Hent0, Hent1.
  simpl in Hrun0, Hrun1, Hshape0, Hshape1, Hent0, Hent1.
  rewrite Z.mul_1_r in Hrun0, Hrun1, Hshape0, Hshape1, Hent0, Hent1.
  rewrite !Nat2Z.id in Hshape0, Hshape1, Hent0, Hent1.
  exists res0, res1.
  split; [|split; [|split; [done|split; [done|split]]]].
  - unfold partialTrace, rank. rewrite Hrk.
    change (Z.of_nat 0) with 0 in Hrun0. by rewrite Hrun0.
  - unfold partialTrace, rank. rewrite Hrk.
    change (Z.of_nat 1) with 1 in Hrun1. by rewrite Hrun1.
  - intros i j Hi Hj. rewrite Hent0, Nat2Z.id by done.
    f_equal. apply list_fmap_ext. intros n k Hk.
    apply lookup_seq in Hk as [-> Hk]. simpl.
    by rewrite !full_index_two_first.
  - intros i j Hi Hj. rewrite Hent1, Nat2Z.id by done.
    f_equal. apply list_fmap_ext. intros n k Hk.
    apply lookup_seq in Hk as [-> Hk]. simpl.
    by rewrite !full_index_two.
Qed.

End Generic.

(** The state [up], built from diag(1, 0). *)
Lemma setMatrix_own_matrix_witness :
  setMatrix (densityMatrix up) up = (Ok (), up).
Proof.
  apply (setMatrix_own_matrix (diag [1; 0]%Q) space2 up).
  vm_compute. reflexivity.
Defined.

Lemma partialTrace_single_factor_witness :
  partialTrace 0 up = (Throw Undefined, up).
Proof.
  apply partialTrace_single_factor.
  - apply QuantumStateFacts.up_valid.
  - vm_compute. reflexivity.
Defined.

(** The state [mixed] on two qubits. *)
Lemma partialTrace_two_factors_witness :
  exists res0 res1 : matrix Q,
    partialTrace 0 mixed
    = (construct res0 {| _rank := 1; _dim := 2; _dimensions := [2] |}, mixed) /\
    partialTrace 1 mixed
    = (construct res1 {| _rank := 1; _dim := 2; _dimensions := [2] |}, mixed) /\
    entry res0 1 1
    = sum [entry (densityMatrix mixed) 1 1; entry (densityMatrix mixed) 3 3] /\
    entry res1 1 1
    = sum [entry (densityMatrix mixed) 2 2; entry (densityMatrix mixed) 3 3].
Proof.
  destruct (partialTrace_two_factors mixed 2 2 QuantumStateFacts.mixed_valid)
    as (res0 & res1 & Hrun0 & Hrun1 & _ & _ & Hent0 & Hent1).
  - vm_compute. reflexivity.
  - exists res0, res1. split; [exact Hrun0|]. split; [exact Hrun1|]. split.
    + apply (Hent0 1%nat 1%nat); lia.
    + apply (Hent1 1%nat 1%nat); lia.
Defined.

End QuantumStateLaws.

(** * The partial trace, in exact real arithmetic *)

Module TraceLaws.
Import HilbertSpace Eigen QuantumState ExactReal.
Import HilbertSpaceFacts LoopFacts DigitFacts EigenFacts PartialTraceFacts PurityFacts.

Local Open Scope R_scope.

Lemma Rsum_plus (f g : nat -> R) (n : nat) :
  Rsum (fun i => f i + g i) n = Rsum f n + Rsum g n.
Proof. induction n as [|n IH]; simpl; [lra|]. rewrite IH. lra. Qed.

Lemma Rsum_zero (n : nat) : Rsum (fun _ => 0) n = 0.
Proof. rewrite Rsum_const. lra. Qed.

Lemma Rsum_swap (g : nat -> nat -> R) (n m : nat) :
  Rsum (fun i => Rsum (fun j => g i j) m) n
  = Rsum (fun j => Rsum (fun i => g i j) n) m.
Proof.
  induction n as [|n IH]; simpl.
  - by rewrite Rsum_zero.
  - by rewrite Rsum_plus, IH.
Qed.

Lemma Rsum_foldl (g : nat -> R) (n : nat) :
  Rsum g n = foldl (fun acc r => acc + g r) 0 (seq 0 n).
Proof.
  induction n as [|n IH]; [reflexivity|].
  rewrite seq_S, foldl_app. simpl. by rewrite IH.
Qed.

(** A sum over the indices selected by [P], when these are the values of
    [h] on [0, d). *)
Lemma Rsum_selected (P : nat -> Prop) `{!forall r, Decision (P r)}
    (h : nat -> nat) (f : nat -> R) (n d : nat) :
  filter P (seq 0 n) = h <$> seq 0 d ->
  Rsum (fun r => if decide (P r) then f r else 0) n = Rsum (fun k => f (h k)) d.
Proof.
  intros Hsel. rewrite !Rsum_foldl.
  rewrite (foldl_ext_in _ (fun acc r => if decide (P r) then acc + f r else acc)).
  - rewrite (foldl_filter P (fun acc r => acc + f r)), Hsel.
    by rewrite foldl_fmap.
  - intros acc r _. destruct (decide (P r)); lra.
Qed.

(** A sum over [0, n), grouped by the value of [g] in [0, m). *)
Lemma Rsum_grouped (g : nat -> nat) (f : nat -> R) (n m : nat) :
  (forall r, (r < n)%nat -> (g r < m)%nat) ->
  Rsum (fun i => Rsum (fun r => if decide (g r = i) then f r else 0) n) m
  = Rsum f n.
Proof.
  intros Hg. rewrite Rsum_swap. apply Rsum_ext. intros r Hr.
  rewrite (Rsum_single _ m (g r)) by
    (apply Hg, Hr || (intros k _ Hk; by rewrite decide_False)).
  by rewrite decide_True.
Qed.

Lemma re_sum (f : nat -> complex R) (n : nat) :
  re (sum (f <$> seq 0 n)) = Rsum (fun i => re (f i)) n.
Proof. by rewrite sum_Rsum. Qed.

Lemma im_sum (f : nat -> complex R) (n : nat) :
  im (sum (f <$> seq 0 n)) = Rsum (fun i => im (f i)) n.
Proof. by rewrite sum_Rsum. Qed.

Section Trace.
Variables (this : t R) (idx : nat) (d : Z).
Hypothesis Hvalid : QuantumState.valid this.
Hypothesis Hd : dimensions (_space this) !! idx = Some d.
Hypothesis Hrank : (2 <= length (dimensions (_space this)))%nat.

Local Abbreviation ds := (_dimensions (_space this)).
Local Abbreviation N := (Z.to_nat (product ds)).
Local Abbreviation M := (Z.to_nat (product (delete idx ds))).

(** Every flat index is met once, as a reduced index and a digit. *)
Lemma Rsum_by_digit (f : nat -> R) :
  Rsum (fun i => Rsum (fun k => f (full_index ds idx i (Z.of_nat k)))
                      (Z.to_nat d)) M
  = Rsum f N.
Proof.
  rewrite <- (Rsum_grouped (reduced_index ds idx) f N M)
    by (intros r _; apply (redn_lt this idx d Hvalid Hd)).
  apply Rsum_ext. intros i Hi. symmetry.
  apply (Rsum_selected (fun r => reduced_index ds idx r = i)
           (fun k => full_index ds idx i (Z.of_nat k))).
  by apply (rows_of_reduced_index this idx d Hvalid Hd Hrank).
Qed.

Lemma partialTrace_trace_run :
  exists res : matrix R,
    partialTrace_matrix this (Z.of_nat idx) = Ok (res, reduced_space ds idx) /\
    trace res = trace (_density this).
Proof.
  destruct (partialTrace_matrix_spec this idx d Hvalid Hd Hrank)
    as (res & Hrun & Hshape & Hent).
  exists res. split; [exact Hrun|].
  assert (Hrho : is_shape N N (_density this)).
  { destruct Hvalid as [(_ & _ & Hdim & _) Hs]. unfold totalDimension in Hs.
    by rewrite Hdim in Hs. }
  rewrite (trace_entries res M Hshape), (trace_entries _ N Hrho).
  rewrite !sum_Rsum. f_equal.
  - rewrite <- (Rsum_by_digit (fun r => re (entry (_density this) r r))).
    apply Rsum_ext. intros i Hi. by rewrite Hent, re_sum.
  - rewrite <- (Rsum_by_digit (fun r => im (entry (_density this) r r))).
    apply Rsum_ext. intros i Hi. by rewrite Hent, im_sum.
Qed.

Lemma Rsum_opp (g : nat -> R) (n : nat) :
  Rsum (fun i => - g i) n = - Rsum g n.
Proof. induction n as [|n IH]; simpl; [lra|]. rewrite IH. lra. Qed.

Lemma partialTrace_symmetry_run :
  (forall a b : nat, (a < N)%nat -> (b < N)%nat ->
     entry (_density this) a b = cconj (entry (_density this) b a)) ->
  exists res : matrix R,
    partialTrace_matrix this (Z.of_nat idx) = Ok (res, reduced_space ds idx) /\
    forall i j : nat, (i < M)%nat -> (j < M)%nat ->
      entry res i j = cconj (entry res j i).
Proof.
  intros Hsym.
  destruct (partialTrace_matrix_spec this idx d Hvalid Hd Hrank)
    as (res & Hrun & Hshape & Hent).
  exists res. split; [exact Hrun|]. intros i j Hi Hj.
  rewrite (Hent i j), (Hent j i) by done. rewrite !sum_Rsum.
  unfold cconj. simpl. rewrite <- Rsum_opp.
  assert (Hin : forall c k : nat, (k < Z.to_nat d)%nat ->
            (full_index ds idx c (Z.of_nat k) < N)%nat)
    by (intros c k Hk; apply (insn_lt this idx d Hvalid Hd); lia).
  f_equal; apply Rsum_ext; intros k Hk;
    rewrite (Hsym (full_index ds idx i (Z.of_nat k))) by (by apply Hin);
    reflexivity.
Qed.

End Trace.

(** X17.  In exact arithmetic the partial trace keeps the trace: on a valid
    state of rank at least 2 and an index in range, the matrix that
    [partialTrace] hands to the constructor, whatever the eigen solver, has
    the trace of the density matrix, so that the constructor's trace test
    finds what it found on the state itself. *)
Theorem partialTrace_keeps_trace (this : t R) (index : Z) :
  valid this -> (2 <= rank (space this))%Z ->
  (0 <= index < rank (space this))%Z ->
  exists (res : matrix R) (sp : HilbertSpace.t),
    (forall solver : SelfAdjointEigenSolver R,
       @partialTrace R _ solver index this
       = (@construct R _ solver res sp, this)) /\
    trace res = trace (densityMatrix this) /\
    d_ltb d_epsilon (cabs (csub (trace res) (Complex d_one d_zero)))
    = d_ltb d_epsilon
        (cabs (csub (trace (densityMatrix this)) (Complex d_one d_zero))).
Proof.
  unfold rank, space, densityMatrix. intros Hvalid Hrank Hindex.
  pose proof Hvalid as [(Hrk & _) _].
  destruct (lookup_lt_is_Some_2 (_dimensions (_space this)) (Z.to_nat index))
    as [d Hd]; [lia|].
  destruct (partialTrace_trace_run this (Z.to_nat index) d Hvalid Hd)
    as (res & Hrun & Htrace); [unfold dimensions; lia|].
  rewrite Z2Nat.id in Hrun by lia.
  exists res, (reduced_space (_dimensions (_space this)) (Z.to_nat index)).
  split; [|split; [exact Htrace | by rewrite Htrace]].
  intros solver. unfold partialTrace, rank.
  rewrite (proj2 (Z.ltb_ge index 0)) by lia.
  rewrite (proj2 (Z.leb_gt (_rank (_space this)) index)) by lia.
  by rewrite Hrun.
Qed.

(** X18.  In exact arithmetic the partial trace keeps Hermitian symmetry: if
    every coefficient of the density matrix is the conjugate of its mirror
    image, so is every coefficient of the square matrix that [partialTrace]
    hands to the constructor. *)
Theorem partialTrace_keeps_symmetry (this : t R) (index : Z) :
  valid this -> (2 <= rank (space this))%Z ->
  (0 <= index < rank (space this))%Z ->
  (forall a b : nat,
     (a < Z.to_nat (totalDimension (space this)))%nat ->
     (b < Z.to_nat (totalDimension (space this)))%nat ->
     entry (densityMatrix this) a b = cconj (entry (densityMatrix this) b a)) ->
  exists (res : matrix R) (sp : HilbertSpace.t),
    (forall solver : SelfAdjointEigenSolver R,
       @partialTrace R _ solver index this
       = (@construct R _ solver res sp, this)) /\
    is_shape (Z.to_nat (totalDimension sp)) (Z.to_nat (totalDimension sp)) res /\
    forall i j : nat,
      (i < Z.to_nat (totalDimension sp))%nat ->
      (j < Z.to_nat (totalDimension sp))%nat ->
      entry res i j = cconj (entry res j i).
Proof.
  unfold rank, space, densityMatrix. intros Hvalid Hrank Hindex Hsym.
  pose proof Hvalid as [(Hrk & _ & Hdim & _) _].
  destruct (lookup_lt_is_Some_2 (_dimensions (_space this)) (Z.to_nat index))
    as [d Hd]; [lia|].
  assert (Hrank' : (2 <= length (dimensions (_space this)))%nat)
    by (unfold dimensions; lia).
  destruct (partialTrace_symmetry_run this (Z.to_nat index) d Hvalid Hd Hrank')
    as (res & Hrun & Hres).
  { unfold totalDimension in Hsym. by rewrite Hdim in Hsym. }
  destruct (partialTrace_matrix_spec this (Z.to_nat index) d Hvalid Hd Hrank')
    as (res' & Hrun' & Hshape & _).
  rewrite Hrun in Hrun'. injection Hrun' as <-.
  rewrite Z2Nat.id in Hrun by lia.
  exists res, (reduced_space (_dimensions (_space this)) (Z.to_nat index)).
  split; [|split; [exact Hshape | exact Hres]].
  intros solver. unfold partialTrace, rank.
  rewrite (proj2 (Z.ltb_ge index 0)) by lia.
  rewrite (proj2 (Z.leb_gt (_rank (_space this)) index)) by lia.
  by rewrite Hrun.
Qed.

Lemma correlated_valid : valid correlated.
Proof.
  split.
  - repeat split;
      [repeat constructor; unfold is_dim, UINT_MAX; lia | vm_compute; discriminate].
  - split; [reflexivity | repeat constructor].
Qed.

(** The state [correlated], traced over its second qubit. *)
Lemma partialTrace_keeps_trace_witness :
  exists (res : matrix R) (sp : HilbertSpace.t),
    (forall solver : SelfAdjointEigenSolver R,
       @partialTrace R _ solver 1%Z correlated
       = (@construct R _ solver res sp, correlated)) /\
    trace res = trace (densityMatrix correlated).
Proof.
  destruct (partialTrace_keeps_trace correlated 1%Z correlated_valid)
    as (res & sp & Hrun & Htrace & _).
  - vm_compute. discriminate.
  - vm_compute. split; [discriminate | reflexivity].
  - exists res, sp. split; [exact Hrun | exact Htrace].
Defined.

(** The state [correlated], traced over its first qubit. *)
Lemma partialTrace_keeps_symmetry_witness :
  exists (res : matrix R) (sp : HilbertSpace.t),
    (forall solver : SelfAdjointEigenSolver R,
       @partialTrace R _ solver 0%Z correlated
       = (@construct R _ solver res sp, correlated)) /\
    forall i j : nat,
      (i < Z.to_nat (totalDimension sp))%nat ->
      (j < Z.to_nat (totalDimension sp))%nat ->
      entry res i j = cconj (entry res j i).
Proof.
  destruct (partialTrace_keeps_symmetry correlated 0%Z correlated_valid)
    as (res & sp & Hrun & _ & Hsym).
  - vm_compute. discriminate.
  - vm_compute. split; [discriminate | reflexivity].
  - intros a b Ha Hb. change (Z.to_nat _) with 4%nat in Ha, Hb.
    destruct a as [|[|[|[|a]]]]; [| | | |lia];
      (destruct b as [|[|[|[|b]]]]; [| | | |lia]);
      unfold entry, cconj; simpl; f_equal; lra.
  - exists res, sp. split; [exact Hrun | exact Hsym].
Defined.

End TraceLaws.

(** * The density matrix of a column *)

Module ColumnLaws.
Import HilbertSpace Eigen QuantumState ExactReal.
Import EigenFacts PurityFacts TraceLaws.

Section Generic.
Context {D : Type} `{Scalar D}.

Lemma cols_shape (m : matrix D) n c : is_shape n c m -> (0 < n)%nat -> cols m = c.
Proof.
  intros [Hn Hc] Hpos. destruct m as [|r m]; simpl in *; [lia|].
  by apply Forall_cons in Hc as [? _].
Qed.

Lemma is_shape_transpose (m : matrix D) n c :
  is_shape n c m -> (0 < n)%nat -> is_shape c n (transpose m).
Proof.
  intros Hm Hpos. split; [by apply (length_transpose m n c)|].
  unfold transpose. apply Forall_fmap, Forall_true. intros j.
  unfold has_length. simpl. rewrite length_fmap. by destruct Hm.
Qed.

Lemma entry_transpose (m : matrix D) n c i j :
  is_shape n c m -> (i < c)%nat -> (j < n)%nat ->
  entry (transpose m) i j = entry m j i.
Proof.
  intros Hm Hi Hj. unfold entry at 1.
  rewrite (lookup_transpose m n c i Hm) by lia. simpl.
  rewrite list_lookup_fmap. destruct Hm as [Hn _].
  destruct (lookup_lt_is_Some_2 m j) as [r Hr]; [lia|].
  rewrite Hr. simpl. unfold entry. by rewrite Hr.
Qed.

(** A coefficient of a product of matrices of any shapes. *)
Lemma entry_mul_shapes (a b : matrix D) n k m i j :
  is_shape n k a -> is_shape k m b -> (0 < k)%nat ->
  (i < n)%nat -> (j < m)%nat ->
  entry (mul a b) i j
  = sum ((fun t => cmul (entry a i t) (entry b t j)) <$> seq 0 k).
Proof.
  intros Ha Hb Hk Hi Hj. pose proof Ha as [Hna Hca]. pose proof Hb as [Hnb Hcb].
  destruct (lookup_lt_is_Some_2 a i) as [r Hr]; [lia|].
  pose proof (Forall_lookup_1 _ _ _ _ Hca Hr) as Hlr. unfold has_length in Hlr.
  unfold entry at 1, mul. rewrite list_lookup_fmap, Hr. simpl.
  rewrite list_lookup_fmap, (lookup_transpose b k m j Hb) by lia. simpl.
  f_equal. apply list_eq. intros t.
  rewrite lookup_zip_with, !list_lookup_fmap.
  destruct (decide (t < k)%nat) as [Ht|Ht].
  - rewrite lookup_seq_lt by done. simpl.
    destruct (lookup_lt_is_Some_2 r t) as [x Hx]; [lia|].
    destruct (lookup_lt_is_Some_2 b t) as [rb Hrb]; [lia|].
    rewrite Hx, Hrb. simpl. unfold entry. rewrite Hr, Hrb. simpl.
    by rewrite Hx.
  - rewrite lookup_seq_ge by lia. rewrite (lookup_ge_None_2 r) by lia. done.
Qed.

Lemma is_shape_normalize (m : matrix D) n c :
  is_shape n c m -> is_shape n c (normalize m).
Proof.
  intros [Hn Hc]. unfold normalize. split; [by rewrite length_fmap|].
  apply Forall_fmap. eapply Forall_impl; [exact Hc|].
  intros r Hr. unfold has_length in *. simpl. by rewrite length_fmap.
Qed.

Lemma entry_normalize (m : matrix D) n c i j :
  is_shape n c m -> (i < n)%nat -> (j < c)%nat ->
  entry (normalize m) i j
  = cdiv_real (entry m i j) (d_sqrt (squaredNorm m)).
Proof.
  intros [Hn Hc] Hi Hj.
  destruct (lookup_lt_is_Some_2 m i) as [r Hr]; [lia|].
  pose proof (Forall_lookup_1 _ _ _ _ Hc Hr) as Hlr. unfold has_length in Hlr.
  destruct (lookup_lt_is_Some_2 r j) as [x Hx]; [lia|].
  unfold entry, normalize. rewrite list_lookup_fmap, Hr. simpl.
  by rewrite list_lookup_fmap, Hx.
Qed.

(** Lines 34-35 on a column: the coefficients of the product of the
    normalized column with its transpose. *)
Lemma entry_column_product (m : matrix D) n i j :
  is_shape n 1 m -> (i < n)%nat -> (j < n)%nat ->
  entry (mul (normalize m) (transpose (normalize m))) i j
  = cadd czero
      (cmul (cdiv_real (entry m i 0) (d_sqrt (squaredNorm m)))
            (cdiv_real (entry m j 0) (d_sqrt (squaredNorm m)))).
Proof.
  intros Hm Hi Hj. pose proof (is_shape_normalize m n 1 Hm) as Hnm.
  rewrite (entry_mul_shapes _ _ n 1 n)
    by (done || lia || apply is_shape_transpose; done || lia).
  simpl. rewrite (entry_transpose _ n 1) by (done || lia).
  by rewrite !(entry_normalize m n 1) by (done || lia).
Qed.

Lemma is_shape_mul_shapes (a b : matrix D) n k m :
  is_shape n k a -> is_shape k m b -> (0 < k)%nat -> is_shape n m (mul a b).
Proof.
  intros [Hna Hca] Hb Hk. split; unfold mul; [by rewrite length_fmap|].
  apply Forall_fmap, Forall_true. intros r. unfold has_length. simpl.
  rewrite length_fmap. by apply (length_transpose b k m Hb).
Qed.

(** The coefficients of a matrix of one column, row after row. *)
Lemma concat_column (m : matrix D) n :
  is_shape n 1 m -> concat m = (fun i => entry m i 0) <$> seq 0 n.
Proof.
  intros [Hn Hc]. subst n.
  transitivity ((fun r : list (complex D) => default czero (r !! 0%nat)) <$> m).
  - induction Hc as [|r m Hr _ IH]; [done|].
    destruct r as [|x [|? ?]]; try done. simpl. by rewrite IH.
  - apply list_eq. intros i. rewrite !list_lookup_fmap.
    destruct (decide (i < length m)%nat) as [Hi|Hi].
    + rewrite lookup_seq_lt by done. simpl.
      destruct (lookup_lt_is_Some_2 m i) as [r Hr]; [done|].
      unfold entry. by rewrite Hr.
    + rewrite lookup_seq_ge, (lookup_ge_None_2 m) by lia. done.
Qed.

End Generic.

Local Open Scope R_scope.

Lemma squaredNorm_column (m : matrix R) n :
  is_shape n 1 m -> squaredNorm m = Rsum (fun i => abs2 (entry m i 0)) n.
Proof.
  intros Hm. unfold squaredNorm. rewrite (concat_column m n Hm).
  rewrite Rsum_foldl, <- list_fmap_compose, foldl_fmap. done.
Qed.

Lemma column_entry_exact (m : matrix R) (n i j : nat) :
  is_shape n 1 m -> 0 < squaredNorm m -> (i < n)%nat -> (j < n)%nat ->
  entry (mul (normalize m) (transpose (normalize m))) i j
  = cdiv_real (cmul (entry m i 0) (entry m j 0)) (squaredNorm m).
Proof.
  intros Hm Hpos Hi Hj. rewrite (entry_column_product m n) by done.
  destruct (entry m i 0) as [a1 a2], (entry m j 0) as [b1 b2].
  unfold cadd, cmul, cdiv_real, czero. simpl.
  assert (Hge : 0 <= squaredNorm m) by lra.
  pose proof (sqrt_sqrt (squaredNorm m) Hge) as Hs.
  assert (Hne : sqrt (squaredNorm m) <> 0)
    by (intros Hz; rewrite Hz in Hs; lra).
  set (s := sqrt (squaredNorm m)) in *. rewrite <- Hs.
  f_equal; field; done.
Qed.

(** X19.  The matrix that the constructor takes as density matrix of a
    column [v] of nonzero norm (lines 34-35), in exact arithmetic: its
    coefficient (i, j) is [v i * v j / ||v||^2], without conjugation.  It is
    the coefficient [v i * conj (v j) / ||v||^2] of the projector on [v]
    exactly when [v i] is zero or [v j] is real.  It is the density matrix
    of every state that the constructor returns for the column. *)
Theorem column_density_coefficients (m : matrix R) (n i j : nat) :
  is_shape n 1 m -> 0 < squaredNorm m -> (i < n)%nat -> (j < n)%nat ->
  let v := fun k : nat => entry m k 0 in
  let rho := mul (normalize m) (transpose (normalize m)) in
  entry rho i j = cdiv_real (cmul (v i) (v j)) (squaredNorm m) /\
  (entry rho i j = cdiv_real (cmul (v i) (cconj (v j))) (squaredNorm m)
   <-> v i = czero \/ im (v j) = 0) /\
  (forall (solver : SelfAdjointEigenSolver R) (sp : HilbertSpace.t) (st : t R),
     @construct R _ solver m sp = Ok st -> densityMatrix st = rho).
Proof.
  intros Hm Hpos Hi Hj v rho.
  assert (Hrho : entry rho i j = cdiv_real (cmul (v i) (v j)) (squaredNorm m))
    by (by apply (column_entry_exact m n)).
  split; [exact Hrho|]. split.
  2: { intros solver sp st Hst.
       apply (PartialTraceFacts.construct_of_column m sp st Hst).
       apply (cols_shape m n 1 Hm). lia. }
  rewrite Hrho.
  destruct (v i) as [a1 a2], (v j) as [b1 b2].
  unfold cmul, cconj, cdiv_real, czero. simpl. split.
  - intros [= Hre Him].
    apply Rmult_eq_reg_r in Hre; [|apply Rinv_neq_0_compat; lra].
    apply Rmult_eq_reg_r in Him; [|apply Rinv_neq_0_compat; lra].
    destruct (Req_dec b2 0) as [?|Hb]; [by right|]. left.
    assert (a2 * b2 = 0) by lra. assert (a1 * b2 = 0) by lra.
    f_equal; [apply (Rmult_eq_reg_r b2); lra | apply (Rmult_eq_reg_r b2); lra].
  - intros [[= -> ->]| ->]; f_equal; lra.
Qed.

(** The column (3, 4i): the coefficient (0, 1) is 12i/25, that of the
    projector is -12i/25. *)
Lemma column_density_coefficients_witness :
  entry (mul (normalize [[Complex 3 0]; [Complex 0 4]])
             (transpose (normalize [[Complex 3 0]; [Complex 0 4]]))) 0 1
  = cdiv_real (cmul (Complex 3 0) (Complex 0 4))
              (squaredNorm [[Complex 3 0]; [Complex 0 4]]).
Proof.
  apply (column_density_coefficients [[Complex 3 0]; [Complex 0 4]] 2 0 1).
  - split; [reflexivity | repeat constructor].
  - unfold squaredNorm, abs2. simpl. lra.
  - lia.
  - lia.
Defined.

(** X20.  The constructor and [isPure], in exact arithmetic: a state whose
    density matrix is the one the constructor forms from a column of real
    amplitudes, not all zero, is pure. *)
Theorem real_column_is_pure (m : matrix R) (n : nat) (this : t R) :
  is_shape n 1 m -> 0 < squaredNorm m ->
  (forall i : nat, (i < n)%nat -> im (entry m i 0) = 0) ->
  densityMatrix this = mul (normalize m) (transpose (normalize m)) ->
  isPure this = true.
Proof.
  intros Hm Hpos Hreal Hrho.
  assert (Hn : (0 < n)%nat).
  { destruct n; [|lia]. rewrite (squaredNorm_column m 0 Hm) in Hpos.
    simpl in Hpos. lra. }
  assert (Hshape : is_shape n n (densityMatrix this)).
  { rewrite Hrho. apply (is_shape_mul_shapes _ _ n 1 n);
      [by apply is_shape_normalize
      | apply is_shape_transpose; [by apply is_shape_normalize | done]
      | lia]. }
  set (x := fun i : nat => re (entry m i 0)).
  set (S := squaredNorm m) in *.
  assert (HS : S = Rsum (fun i => x i * x i) n).
  { unfold S. rewrite (squaredNorm_column m n Hm). apply Rsum_ext.
    intros i Hi. unfold abs2, x. simpl. rewrite (Hreal i Hi). lra. }
  assert (Hent : forall i j : nat, (i < n)%nat -> (j < n)%nat ->
            entry (densityMatrix this) i j = Complex (x i * x j / S) 0).
  { intros i j Hi Hj. rewrite Hrho, (column_entry_exact m n) by done.
    fold S. unfold x.
    pose proof (Hreal i Hi) as Hii. pose proof (Hreal j Hj) as Hjj.
    destruct (entry m i 0) as [a1 a2], (entry m j 0) as [b1 b2].
    simpl in *. subst a2 b2. unfold cmul, cdiv_real. simpl.
    f_equal; field; lra. }
  rewrite (isPure_parts this n 1 0 Hshape).
  - replace ((1 - 1) * (1 - 1) + 0 * 0) with 0 by lra. rewrite sqrt_0.
    unfold Rltb. destruct (Rlt_dec _ _) as [|Hno]; [done|].
    exfalso. apply Hno. apply Rinv_0_lt_compat, pow_lt. lra.
  - rewrite trace_of_square_parts. f_equal.
    + transitivity (Rsum (fun i => S / (S * S) * (x i * x i)) n).
      * apply Rsum_ext. intros i Hi.
        transitivity (Rsum (fun k => x i * x i / (S * S) * (x k * x k)) n).
        { apply Rsum_ext. intros k Hk. rewrite !Hent by done. simpl.
          field. lra. }
        rewrite Rsum_scal, <- HS. field. lra.
      * rewrite Rsum_scal, <- HS. field. lra.
    + rewrite (Rsum_ext _ (fun _ => 0)), Rsum_const by
        (intros i Hi; rewrite (Rsum_ext _ (fun _ => 0)), Rsum_const
           by (intros k Hk; rewrite !Hent by done; simpl; lra); lra).
      lra.
Qed.

(** The column (3, 4). *)
Lemma real_column_is_pure_witness :
  isPure (QuantumState.mk
            (mul (normalize [[Complex 3 0]; [Complex 4 0]])
                 (transpose (normalize [[Complex 3 0]; [Complex 4 0]])))
            Examples.space2 [] [])
  = true.
Proof.
  apply (real_column_is_pure [[Complex 3 0]; [Complex 4 0]] 2).
  - split; [reflexivity | repeat constructor].
  - unfold squaredNorm, abs2. simpl. lra.
  - intros [|[|i]] Hi; [reflexivity | reflexivity | lia].
  - reflexivity.
Defined.

End ColumnLaws.

(** * Equality of states *)

Module EqualityLaws.
Import HilbertSpace Eigen QuantumState Exact ExactReal Examples.

Local Open Scope R_scope.

Lemma abs2_csub_sym (x y : complex R) : abs2 (csub x y) = abs2 (csub y x).
Proof. unfold abs2, csub. simpl. ring. Qed.

Lemma abs2_row_sym (r s : list (complex R)) :
  abs2 <$> zip_with csub r s = abs2 <$> zip_with csub s r.
Proof.
  revert s. induction r as [|x r IH]; intros [|y s]; try done.
  change (abs2 (csub x y) :: (abs2 <$> zip_with csub r s)
          = abs2 (csub y x) :: (abs2 <$> zip_with csub s r)).
  f_equal; [apply abs2_csub_sym | apply IH].
Qed.

Lemma squaredNorm_sub_sym (a b : matrix R) :
  squaredNorm (sub a b) = squaredNorm (sub b a).
Proof.
  unfold squaredNorm, sub. f_equal.
  revert b. induction a as [|r a IH]; intros [|s b]; try done.
  change (abs2 <$> zip_with csub r s ++ concat (zip_with (zip_with csub) a b)
          = abs2 <$> zip_with csub s r ++ concat (zip_with (zip_with csub) b a)).
  rewrite !fmap_app. f_equal; [apply abs2_row_sym | apply IH].
Qed.

Lemma foldl_Rplus_nonneg (l : list R) (acc : R) :
  0 <= acc -> Forall (fun x => 0 <= x) l -> 0 <= foldl Rplus acc l.
Proof.
  intros Hacc Hl. revert acc Hacc.
  induction Hl as [|x l Hx _ IH]; intros acc Hacc; simpl; [done|].
  apply IH. lra.
Qed.

Lemma squaredNorm_nonneg (m : matrix R) : 0 <= squaredNorm m.
Proof.
  unfold squaredNorm. apply foldl_Rplus_nonneg; [simpl; lra|].
  apply Forall_fmap, Forall_true. intros z. unfold abs2. simpl. nra.
Qed.

Lemma foldl_Rplus_zero (l : list R) :
  Forall (fun x => x = 0) l -> foldl Rplus 0 l = 0.
Proof.
  induction 1 as [|x l -> _ IH]; simpl; [done|]. by rewrite Rplus_0_r.
Qed.

Lemma squaredNorm_sub_self (a : matrix R) : squaredNorm (sub a a) = 0.
Proof.
  unfold squaredNorm, sub. apply foldl_Rplus_zero.
  apply Forall_fmap, Forall_concat, Forall_forall.
  intros r Hr. apply list_elem_of_lookup in Hr as [i Hr].
  rewrite lookup_zip_with in Hr.
  destruct (a !! i) as [s|]; simplify_eq/=.
  apply Forall_forall. intros z Hz. apply list_elem_of_lookup in Hz as [j Hz].
  rewrite lookup_zip_with in Hz.
  destruct (s !! j) as [x|]; simplify_eq/=.
  unfold abs2, csub. simpl. ring.
Qed.

Lemma isApprox_refl (a : matrix R) : isApprox a a = true.
Proof.
  unfold isApprox. rewrite squaredNorm_sub_self. simpl.
  unfold Rleb. destruct (Rle_dec _ _) as [|Hn]; [done|]. exfalso. apply Hn.
  pose proof (squaredNorm_nonneg a) as Ha.
  assert (Hp : 0 < / 10 ^ 12) by (apply Rinv_0_lt_compat, pow_lt; lra).
  unfold d_min. simpl. destruct (Rltb _ _); nra.
Qed.

Lemma isApprox_sym (a b : matrix R) : isApprox a b = isApprox b a.
Proof.
  unfold isApprox. rewrite squaredNorm_sub_sym. do 2 f_equal.
  unfold d_min. simpl. unfold Rltb.
  destruct (Rlt_dec _ _), (Rlt_dec _ _); lra.
Qed.

Local Close Scope R_scope.

(** X21.  [operator==] on states compares the density matrices with Eigen's
    [isApprox], to the relative precision 1e-12, and the spaces by their
    dimension lists.  In exact arithmetic it is reflexive and symmetric,
    and [operator!=] is symmetric with it.  It is not transitive: of the
    three states diag(1/2, 1/2), diag(1/2 + 4e-13, 1/2 - 4e-13) and
    diag(1/2 + 8e-13, 1/2 - 8e-13) of one qubit, each accepted by the
    constructor, the first two are equal, the last two are equal, the first
    and the last are not. *)
Theorem eqb_tolerant :
  (forall a b : t R,
     eqb a a = true /\ eqb a b = eqb b a /\ neqb a b = neqb b a) /\
  (exists a b c : t Q,
     construct (diag [1 # 2; 1 # 2]%Q) space2 = Ok a /\
     construct (diag [(1 # 2) + (4 # 10 ^ 13); (1 # 2) - (4 # 10 ^ 13)]%Q)
               space2 = Ok b /\
     construct (diag [(1 # 2) + (8 # 10 ^ 13); (1 # 2) - (8 # 10 ^ 13)]%Q)
               space2 = Ok c /\
     eqb a b = true /\ eqb b c = true /\ eqb a c = false /\ neqb a c = true).
Proof.
  split.
  - intros a b.
    assert (Hsym : eqb a b = eqb b a).
    { unfold eqb. rewrite isApprox_sym. f_equal. unfold HilbertSpace.eqb.
      apply bool_decide_ext. split; congruence. }
    split; [|split; [exact Hsym | unfold neqb; by rewrite Hsym]].
    unfold eqb. rewrite isApprox_refl. unfold HilbertSpace.eqb.
    by rewrite bool_decide_eq_true_2.
  - eexists _, _, _.
    split; [vm_compute; reflexivity|]. split; [vm_compute; reflexivity|].
    split; [vm_compute; reflexivity|].
    repeat split; vm_compute; reflexivity.
Qed.

End EqualityLaws.

(** * The density-matrix check *)

Module DensityCheckLaws.
Import HilbertSpace Eigen QuantumState ExactReal.

Local Open Scope R_scope.

Lemma eigenvalue_accepted (v : R) :
  Rltb (/ 10 ^ 15) (Rabs v) && Rltb v 0 = false <-> - / 10 ^ 15 <= v.
Proof.
  assert (Heps : 0 < / 10 ^ 15) by (apply Rinv_0_lt_compat, pow_lt; lra).
  unfold Rltb, Rabs.
  destruct (Rlt_dec _ _) as [H1|H1], (Rlt_dec v 0) as [H2|H2]; simpl;
    destruct (Rcase_abs v); split; intros; try done; lra.
Qed.

(** X22.  [_checkMatrixIsDensityMatrix], in exact arithmetic.  It passes exactly
    when every eigenvalue stored in the object (not those of the argument)
    is at least -1e-15 and the trace of the argument is within 1e-15 of 1;
    otherwise it throws [invalid_argument].  It changes nothing. *)
Theorem density_check_exact (matr : matrix R) (this : t R) :
  let ok :=
    Forall (fun v => - / 10 ^ 15 <= v) (eigenValues this) /\
    cabs (csub (trace matr) (Complex 1 0)) <= / 10 ^ 15 in
  (ok -> _checkMatrixIsDensityMatrix matr this = (Ok (), this)) /\
  (~ ok -> _checkMatrixIsDensityMatrix matr this = (Throw InvalidArgument, this)).
Proof.
  intros ok. unfold ok, eigenValues.
  unfold _checkMatrixIsDensityMatrix, get, throw, mbind, method_bind, mret,
    method_ret.
  destruct (existsb _ (_eigenValues this)) eqn:Hneg.
  - assert (Hbad : ~ Forall (fun v => - / 10 ^ 15 <= v) (_eigenValues this)).
    { intros Hall. apply not_false_iff_true in Hneg. apply Hneg.
      apply QuantumStateLaws.existsb_false.
      eapply Forall_impl; [exact Hall|]. intros v Hv.
      by apply eigenvalue_accepted. }
    split; [intros [? _]; done | done].
  - apply QuantumStateLaws.existsb_false in Hneg.
    assert (Hall : Forall (fun v => - / 10 ^ 15 <= v) (_eigenValues this)).
    { eapply Forall_impl; [exact Hneg|]. intros v Hv.
      by apply eigenvalue_accepted. }
    simpl. unfold Rltb. destruct (Rlt_dec _ _) as [Hfar|Hnear].
    + split; [intros [_ ?]; lra | done].
    + split; [done|]. intros Hn. exfalso. apply Hn. split; [done | lra].
Qed.

End DensityCheckLaws.
